(** * muda: launch scheduler, graph node descriptors, device scalars

    A shallow embedding of
      - [src/muda/launch/parallel_for.h]      (kernels, [parallel_for])
      - [src/muda/graph/details/graph_viewer.inl]
      - [src/muda/buffer/details/device_var.inl], [var_view.inl]
      - [src/ext/muda/container/var.h]
    and the properties the specification states about them. *)

From stdpp Require Import base option list gmap strings.
From Stdlib Require Import ZArith Lia.

Local Open Scope Z_scope.

(** ** 32-bit C++ integers

    [int] and [unsigned int] are 32 bits wide on every CUDA target.  A value
    of either type is carried as a [Z]; [to_uint] is the conversion to
    [unsigned int] (reduction modulo 2^32, which the language defines) and
    [to_int] the conversion to [int] (two's complement).  Signed [+], [-]
    and [*] that overflow wrap around, as they do on the targets of this
    code.  Division has no result when the divisor is zero or the quotient
    overflows ([INT_MIN / -1]): the processor traps. *)
Module CInt.

Definition int_min : Z := - 2 ^ 31.
Definition int_max : Z := 2 ^ 31 - 1.
Definition uint_mod : Z := 2 ^ 32.

Definition in_int (z : Z) : Prop := int_min <= z <= int_max.

Definition to_uint (z : Z) : Z := z mod uint_mod.
Definition to_int (z : Z) : Z := (z + 2 ^ 31) mod uint_mod - 2 ^ 31.

(** [int] operators [-], [+], [*]. *)
Definition sub (a b : Z) : Z := to_int (a - b).
Definition add (a b : Z) : Z := to_int (a + b).
Definition mul (a b : Z) : Z := to_int (a * b).

(** [a / b] and [a % b] on [int] trap in the same cases. *)
Definition traps (a b : Z) : bool :=
  (b =? 0) || ((a =? int_min) && (b =? -1)).

(** [int] operators [/] and [%]; they truncate towards zero. *)
Definition div (a b : Z) : option Z :=
  if traps a b then None else Some (to_int (Z.quot a b)).
Definition rem (a b : Z) : option Z :=
  if traps a b then None else Some (Z.rem a b).

(** [unsigned int] operators. *)
Definition uadd (a b : Z) : Z := to_uint (a + b).
Definition umul (a b : Z) : Z := to_uint (a * b).

End CInt.

(** ** Effects

    Host code returns, raises, or runs into something the language leaves
    undefined (a division by zero, the use of storage that is not there),
    after which nothing can be said of it.  What it has done to the state
    by then stays done.  [M S E A] threads a state of type [S] and carries
    the outcome: a result of type [A], an error of type [E], or
    [Undefined]. *)
Inductive outcome (E A : Type) : Type :=
  | Ret (a : A)
  | Throw (e : E)
  | Undefined.
Arguments Ret {E A} a.
Arguments Throw {E A} e.
Arguments Undefined {E A}.

Definition M (S E A : Type) : Type := S -> outcome E A * S.

Definition ret {S E A} (a : A) : M S E A := fun s => (Ret a, s).
Definition throw {S E A} (e : E) : M S E A := fun s => (Throw e, s).
Definition undefined {S E A} : M S E A := fun s => (Undefined, s).
Definition bind {S E A B} (m : M S E A) (k : A -> M S E B) : M S E B :=
  fun s => match m s with
           | (Ret a, s') => k a s'
           | (Throw e, s') => (Throw e, s')
           | (Undefined, s') => (Undefined, s')
           end.
Definition get {S E} : M S E S := fun s => (Ret s, s).
Definition modify {S E} (f : S -> S) : M S E unit := fun s => (Ret tt, f s).

(** The value of an operation that has one, [Undefined] otherwise. *)
Definition defined {S E A} (o : option A) : M S E A :=
  match o with
  | Some a => ret a
  | None => undefined
  end.

Declare Scope host_scope.
Delimit Scope host_scope with host.
Notation "'let*' x ':=' m 'in' k" := (bind m (fun x => k))
  (at level 10, x name, m at level 100, k at level 200) : host_scope.
Notation "'run' m 'then' k" := (bind m (fun _ => k))
  (at level 10, m at level 100, k at level 200) : host_scope.

Definition throws {E A} (o : outcome E A) : Prop :=
  match o with Throw _ => True | _ => False end.

(** [std::logic_error] with its [what()]. *)
Inductive logic_error : Type := LogicError (what : string).

(** ** parallel_for.h *)
Module ParallelFor.
Import CInt.

(** The two [__global__] entry points of [namespace details]. *)
Inductive entry_point : Type :=
  | parallelForKernel_entry
  | gridStrideLoopKernel_entry.

#[global] Instance entry_point_eq_dec : EqDecision entry_point.
Proof. solve_decision. Defined.

(** Fields of [kernelData<F>], in declaration order. *)
Inductive field : Type := f_begin | f_step | f_end | f_callable.

#[global] Instance field_eq_dec : EqDecision field.
Proof. solve_decision. Defined.

(** A [void*] into a payload: the heap object that holds the payload and
    the member it addresses. *)
Record ptr : Type := Ptr { p_obj : positive; p_field : field }.

#[global] Instance ptr_eq_dec : EqDecision ptr.
Proof. solve_decision. Defined.

(** *** Device side *)

(** The built-in variables of a thread; all are [unsigned int]. *)
Record thread : Type := Thread {
  gridDim_x : Z;
  blockDim_x : Z;
  blockIdx_x : Z;
  threadIdx_x : Z
}.

(** [blockIdx.x * blockDim.x + threadIdx.x] *)
Definition global_tid (th : thread) : Z :=
  uadd (umul (blockIdx_x th) (blockDim_x th)) (threadIdx_x th).

(** [begin + step * k] with [k] unsigned: the usual arithmetic conversions
    turn both [int] operands into [unsigned int]. *)
Definition index_at (begin step k : Z) : Z :=
  uadd (to_uint begin) (umul (to_uint step) k).

(** [i < end] with [i] unsigned and [end] an [int]. *)
Definition in_range (i end_ : Z) : bool := i <? to_uint end_.

(** What a thread, a launch or a stream has done after a number of steps:
    the indices on which [f] was called, oldest first, and whether the
    code has run to its end. *)
Record trace : Type := Trace { calls : list Z; finished : bool }.

(** One after the other. *)
Definition trace_seq (ts : list trace) : trace :=
  Trace (t ← ts; calls t) (forallb finished ts).

(** [parallelForKernel]: the indices on which the thread calls [f]
    ([f] takes an [int], so the unsigned [i] is converted back). *)
Definition parallelForKernel (th : thread) (begin end_ step : Z) : list Z :=
  let tid := global_tid th in
  let i := index_at begin step tid in
  if in_range i end_ then [to_int i] else [].

(** The [while] loop of [gridStrideLoopKernel], entered with the current
    [k] and followed for at most [fuel] rounds: the calls of these rounds,
    and whether the loop was left. *)
Fixpoint gridStrideLoop (fuel : nat) (th : thread) (begin end_ step k : Z)
  : trace :=
  let i := index_at begin step k in
  if in_range i end_ then
    match fuel with
    | O => Trace [] false
    | S fuel' =>
        let k' := uadd k (umul (blockDim_x th) (gridDim_x th)) in
        let t := gridStrideLoop fuel' th begin end_ step k' in
        Trace (to_int i :: calls t) (finished t)
    end
  else Trace [] true.

Definition gridStrideLoopKernel (fuel : nat) (th : thread) (begin end_ step : Z)
  : trace :=
  let tid := global_tid th in
  gridStrideLoop fuel th begin end_ step tid.

Section Scheduler.
Context {F : Type}.

(** *** The kernel payload and the graph node descriptor *)

Record kernelData : Type := KernelData {
  kd_begin : Z;
  kd_step : Z;
  kd_end : Z;
  callable : F
}.

(** What a [void*] into a payload points at. *)
Inductive value : Type :=
  | VInt (z : Z)
  | VCallable (f : F).

Definition field_value (p : kernelData) (fl : field) : value :=
  match fl with
  | f_begin => VInt (kd_begin p)
  | f_step => VInt (kd_step p)
  | f_end => VInt (kd_end p)
  | f_callable => VCallable (callable p)
  end.

(** Modelled from the spec: [kernelNodeParms<U>] is declared in a header
    that is not among the sources verified here.  It is the Graph Node
    Descriptor of the data model: entry point, grid and block dimensions,
    shared memory size, the ordered argument pointers, and the payload it
    owns by value. *)
Record kernelNodeParms : Type := KernelNodeParms {
  kp_func : option entry_point;
  kp_gridDim : Z;
  kp_blockDim : Z;
  kp_sharedMemBytes : Z;
  kp_kernelParams : list ptr;
  kp_data : kernelData
}.

(** One [<<<grid, block, shared, stream>>>(f, begin, end, step)]. *)
Record launch : Type := Launch {
  l_func : entry_point;
  l_gridDim : Z;
  l_blockDim : Z;
  l_sharedMem : Z;
  l_f : F;
  l_begin : Z;
  l_end : Z;
  l_step : Z
}.

(** Host state: the launches issued to the stream, oldest first, and the
    heap of [make_shared] descriptors. *)
Record host : Type := Host {
  stream_ : list launch;
  heap : gmap positive kernelNodeParms
}.

Definition host0 : host := Host [] ∅.

Record parallel_for : Type := ParallelFor {
  gridDim : Z;
  blockDim : Z;
  sharedMemSize : Z
}.

(** [parallel_for(blockDim, sharedMemSize)] *)
Definition parallel_for_auto (blockDim sharedMemSize : Z) : parallel_for :=
  ParallelFor 0 blockDim sharedMemSize.

(** [parallel_for(gridDim, blockDim, sharedMemSize)] *)
Definition parallel_for_stride (gridDim blockDim sharedMemSize : Z) : parallel_for :=
  ParallelFor gridDim blockDim sharedMemSize.

(** [calculateGridDim]; it has no result when one of its divisions
    traps. *)
Definition calculateGridDim (this : parallel_for) (begin end_ step : Z)
  : option Z :=
  let stride := sub end_ begin in
  q ← div stride step;
  r ← rem stride step;
  let nMinthread := add q (if negb (r =? 0) then 1 else 0) in
  q' ← div nMinthread (blockDim this);
  r' ← rem nMinthread (blockDim this);
  let nMinblocks := add q' (if r' >? 0 then 1 else 0) in
  Some nMinblocks.

Definition checkInput {S} (begin end_ step : Z) : M S logic_error unit :=
  if step =? 0 then throw (LogicError "step should not be 0!")
  else if mul step (sub end_ begin) <? 0 then
    throw (LogicError "step direction is not consistent with [begin, end)!")
  else ret tt.

Definition launch_kernel (l : launch) : M host logic_error unit :=
  modify (fun h => Host (stream_ h ++ [l]) (heap h)).

Definition apply (this : parallel_for) (begin end_ step : Z) (f : F)
  : M host logic_error unit :=
  (run checkInput begin end_ step then
   if gridDim this <=? 0 then
     if negb (begin =? end_) then
       let* nBlocks := defined (calculateGridDim this begin end_ step) in
       launch_kernel (Launch parallelForKernel_entry nBlocks (blockDim this)
                             (sharedMemSize this) f begin end_ step)
     else ret tt
   else
     launch_kernel (Launch gridStrideLoopKernel_entry (gridDim this) (blockDim this)
                           (sharedMemSize this) f begin end_ step))%host.

(** [apply(begin, count, f)] and [apply(count, f)] *)
Definition apply_count_from (this : parallel_for) (begin count : Z) (f : F)
  : M host logic_error unit :=
  apply this begin (add begin count) 1 f.
Definition apply_count (this : parallel_for) (count : Z) (f : F)
  : M host logic_error unit :=
  apply this 0 count 1 f.

(** [std::make_shared<kernelNodeParms<kernelData<F>>>(begin, step, end, f)]:
    a fresh heap object whose payload is built by the [kernelData]
    constructor; the other members are still unset. *)
Definition make_shared (begin step end_ : Z) (f : F) : M host logic_error positive :=
  fun h =>
    let l := fresh (dom (heap h)) in
    let d := KernelNodeParms None 0 0 0 [] (KernelData begin step end_ f) in
    (Ret l, Host (stream_ h) (<[l := d]> (heap h))).

Definition update (parms : positive) (g : kernelNodeParms -> kernelNodeParms)
  : M host logic_error unit :=
  modify (fun h => Host (stream_ h) (alter g parms (heap h))).

(** The setters of the descriptor. *)
Definition set_func (parms : positive) (e : entry_point) : M host logic_error unit :=
  update parms (fun d => KernelNodeParms (Some e) (kp_gridDim d) (kp_blockDim d)
                           (kp_sharedMemBytes d) (kp_kernelParams d) (kp_data d)).
Definition set_gridDim (parms : positive) (n : Z) : M host logic_error unit :=
  update parms (fun d => KernelNodeParms (kp_func d) n (kp_blockDim d)
                           (kp_sharedMemBytes d) (kp_kernelParams d) (kp_data d)).
Definition set_blockDim (parms : positive) (n : Z) : M host logic_error unit :=
  update parms (fun d => KernelNodeParms (kp_func d) (kp_gridDim d) n
                           (kp_sharedMemBytes d) (kp_kernelParams d) (kp_data d)).
Definition set_sharedMemBytes (parms : positive) (n : Z) : M host logic_error unit :=
  update parms (fun d => KernelNodeParms (kp_func d) (kp_gridDim d) (kp_blockDim d)
                           n (kp_kernelParams d) (kp_data d)).

(** Modelled from the spec: [parse(fn)] hands [fn] a reference to the
    descriptor's own payload and records the pointers it returns as the
    descriptor's ordered argument-pointer list. *)
Definition parse (parms : positive) (fn : positive -> list ptr)
  : M host logic_error unit :=
  update parms (fun d => KernelNodeParms (kp_func d) (kp_gridDim d) (kp_blockDim d)
                           (kp_sharedMemBytes d) (fn parms) (kp_data d)).

Definition asNodeParms (this : parallel_for) (begin end_ step : Z) (f : F)
  : M host logic_error positive :=
  (run checkInput begin end_ step then
   let* parms := make_shared begin step end_ f in
   run (if gridDim this <=? 0 then
          let* nBlocks := defined (calculateGridDim this begin end_ step) in
          run set_func parms parallelForKernel_entry then
          set_gridDim parms nBlocks
        else
          run set_func parms gridStrideLoopKernel_entry then
          set_gridDim parms (gridDim this)) then
   run set_blockDim parms (blockDim this) then
   run set_sharedMemBytes parms (sharedMemSize this) then
   run parse parms
         (fun p => [Ptr p f_callable; Ptr p f_begin; Ptr p f_end; Ptr p f_step]) then
   ret parms)%host.

(** [asNodeParms(begin, count, f)] and [asNodeParms(count, f)] *)
Definition asNodeParms_count_from (this : parallel_for) (begin count : Z) (f : F)
  : M host logic_error positive :=
  asNodeParms this begin (add begin count) 1 f.
Definition asNodeParms_count (this : parallel_for) (count : Z) (f : F)
  : M host logic_error positive :=
  asNodeParms this 0 count 1 f.

(** Reading through an argument pointer. *)
Definition load (h : host) (p : ptr) : option value :=
  d ← heap h !! p_obj p; Some (field_value (kp_data d) (p_field p)).

(** *** Running what was launched *)

(** The threads of a launch, block by block.  A launch whose grid or
    block dimension is not positive is rejected by the runtime and runs
    no thread. *)
Definition launch_threads (l : launch) : list thread :=
  b ← seqZ 0 (l_gridDim l);
  t ← seqZ 0 (l_blockDim l);
  [Thread (to_uint (l_gridDim l)) (to_uint (l_blockDim l)) b t].

(** What the threads of a launch do, thread after thread, each followed
    for at most [fuel] rounds of its loop. *)
Definition run_launch (fuel : nat) (l : launch) : trace :=
  match l_func l with
  | parallelForKernel_entry =>
      Trace (th ← launch_threads l;
             parallelForKernel th (l_begin l) (l_end l) (l_step l)) true
  | gridStrideLoopKernel_entry =>
      trace_seq
        ((fun th => gridStrideLoopKernel fuel th (l_begin l) (l_end l) (l_step l))
           <$> launch_threads l)
  end.

Definition run_stream (fuel : nat) (ls : list launch) : trace :=
  trace_seq (run_launch fuel <$> ls).

End Scheduler.

Arguments kernelData : clear implicits.
Arguments kernelNodeParms : clear implicits.
Arguments launch : clear implicits.
Arguments host : clear implicits.
Arguments value : clear implicits.

End ParallelFor.


(** ** var.h, device_var.inl, var_view.inl *)
Module DeviceScalar.

(** Why the transfer primitive did not complete: a pointer it was given
    is null or addresses no live storage. *)
Inductive transfer_error : Type :=
  | BadStorage.

(** A blocking transfer carried out by the buffer launcher. *)
Inductive transfer : Type :=
  | HostToDevice (dst : positive)
  | DeviceToHost (src : positive)
  | DeviceToDevice (dst src : positive).

Section Scalar.
Context {T : Type}.

(** [VarView<T>]: the raw storage pointer ([None] is [nullptr]). *)
Record VarView : Type := MkVarView { vv_data : option positive }.

(** [details::var_base<T, Allocator>] *)
Record var_base : Type := VarBase { vb_data : positive }.

(** The world of the scalars: the allocated storage cells, of one element
    each, with what they hold; the [DeviceVar] objects by their own address
    with their [m_data]; the transfers done so far, oldest first; and what
    storage holds when it is handed out, which no code here chooses. *)
Record world : Type := World {
  mem : gmap positive T;
  vars : gmap positive (option positive);
  transfers : list transfer;
  garbage : positive -> T
}.

Definition world0 (g : positive -> T) : world := World ∅ ∅ [] g.

Definition cell (w : world) (p : option positive) : option T :=
  l ← p; mem w !! l.

(** *** The collaborators *)

(** Modelled from the spec: [Memory().alloc(&p, sizeof(T))] and
    [Allocator().allocate(1)] are declared in headers that are not among
    the sources verified here.  They give fresh storage for one element,
    not initialised. *)
Definition alloc : M world transfer_error positive :=
  fun w =>
    let l := fresh (dom (mem w)) in
    (Ret l, World (<[l := garbage w l]> (mem w)) (vars w) (transfers w)
                  (garbage w)).

(** [Allocator().deallocate(p, 1)]; releasing what is not allocated is
    undefined. *)
Definition deallocate (l : positive) : M world transfer_error unit :=
  fun w =>
    match mem w !! l with
    | Some _ => (Ret tt, World (delete l (mem w)) (vars w) (transfers w)
                               (garbage w))
    | None => (Undefined, w)
    end.

(** Modelled from the spec: [BufferLaunch().copy(dst, src).wait()] is
    declared in [muda/buffer/buffer_launch.h], which is not among the
    sources verified here.  It is the blocking transfer of one element;
    there are three shapes, by the kinds of [dst] and [src]; a failure of
    the transfer surfaces from the operation that asked for it, as the
    transfer error of the spec, and then nothing was transferred.  This
    shape goes from a host value to storage. *)
Definition copy_to_view (dst : VarView) (val : T) : M world transfer_error unit :=
  fun w =>
    match vv_data dst, cell w (vv_data dst) with
    | Some l, Some _ =>
        (Ret tt, World (<[l := val]> (mem w)) (vars w)
                       (transfers w ++ [HostToDevice l]) (garbage w))
    | _, _ => (Throw BadStorage, w)
    end.

(** Modelled from the spec: the same transfer, from storage to a host
    value; the value is whatever the storage holds. *)
Definition copy_from_view (src : VarView) : M world transfer_error T :=
  fun w =>
    match vv_data src, cell w (vv_data src) with
    | Some l, Some v =>
        (Ret v, World (mem w) (vars w) (transfers w ++ [DeviceToHost l])
                      (garbage w))
    | _, _ => (Throw BadStorage, w)
    end.

(** Modelled from the spec: the same transfer, from storage to storage;
    the destination then holds whatever the source held. *)
Definition copy_view_to_view (dst src : VarView) : M world transfer_error unit :=
  fun w =>
    match vv_data dst, cell w (vv_data dst), vv_data src, cell w (vv_data src) with
    | Some ld, Some _, Some ls, Some c =>
        (Ret tt, World (<[ld := c]> (mem w)) (vars w)
                       (transfers w ++ [DeviceToDevice ld ls]) (garbage w))
    | _, _, _, _ => (Throw BadStorage, w)
    end.

(** [thrust::fill_n(p, 1, v)] and [thrust::copy_n(p, 1, &t)]: they write
    and read through [p] unchecked, and have no error to report; on
    storage that is not allocated that is undefined. *)
Definition fill_n_1 (p : positive) (v : T) : M world transfer_error unit :=
  fun w =>
    match mem w !! p with
    | Some _ => (Ret tt, World (<[p := v]> (mem w)) (vars w) (transfers w)
                               (garbage w))
    | None => (Undefined, w)
    end.

Definition copy_n_1 (p : positive) : M world transfer_error T :=
  fun w =>
    match mem w !! p with
    | Some v => (Ret v, w)
    | None => (Undefined, w)
    end.

(** *** var_view.inl *)

(** [VarView<T>::copy_from(const T* val)] *)
Definition VarView_copy_from_host (this : VarView) (val : T)
  : M world transfer_error unit :=
  copy_to_view this val.

(** [VarView<T>::copy_to(T* val)] *)
Definition VarView_copy_to (this : VarView) : M world transfer_error T :=
  copy_from_view this.

(** [VarView<T>::copy_from(const VarView<T>& val)] *)
Definition VarView_copy_from (this val : VarView) : M world transfer_error unit :=
  copy_view_to_view this val.

(** *** device_var.inl

    A [DeviceVar<T>] is an object at a host address [this]; its only
    member is [m_data].  A member function called where no object lives
    is undefined. *)

Definition get_m_data (this : positive) : M world transfer_error (option positive) :=
  fun w =>
    match vars w !! this with
    | Some d => (Ret d, w)
    | None => (Undefined, w)
    end.

Definition set_m_data (this : positive) (d : option positive)
  : M world transfer_error unit :=
  modify (fun w => World (mem w) (<[this := d]> (vars w)) (transfers w)
                         (garbage w)).

(** Modelled from the spec: [DeviceVar<T>::view()] is declared in the
    class header, which is not among the sources verified here.  It is the
    non-owning reference to the scalar's storage. *)
Definition view (this : positive) : M world transfer_error VarView :=
  (let* d := get_m_data this in ret (MkVarView d))%host.

(** [DeviceVar()] *)
Definition DeviceVar_default (this : positive) : M world transfer_error unit :=
  (let* l := alloc in set_m_data this (Some l))%host.

(** [DeviceVar(const T& value)] *)
Definition DeviceVar_from_value (this : positive) (value : T)
  : M world transfer_error unit :=
  (let* l := alloc in
   run set_m_data this (Some l) then
   let* v := view this in
   VarView_copy_from_host v value)%host.

(** [DeviceVar(const DeviceVar& other)] *)
Definition DeviceVar_copy (this other : positive) : M world transfer_error unit :=
  (let* l := alloc in
   run set_m_data this (Some l) then
   let* v := view this in
   let* o := view other in
   VarView_copy_from v o)%host.

(** [operator=(const DeviceVar<T>& other)] *)
Definition assign_var (this other : positive) : M world transfer_error unit :=
  (if decide (this = other) then ret tt
   else
     let* v := view this in
     let* o := view other in
     VarView_copy_from v o)%host.

(** [operator=(VarView<T> other)] *)
Definition assign_view (this : positive) (other : VarView)
  : M world transfer_error unit :=
  (let* v := view this in VarView_copy_from v other)%host.

(** [copy_from(VarView<T> other)] *)
Definition DeviceVar_copy_from (this : positive) (other : VarView)
  : M world transfer_error unit :=
  (let* v := view this in VarView_copy_from v other)%host.

(** [operator=(const T& val)] *)
Definition assign_value (this : positive) (val : T) : M world transfer_error unit :=
  (let* v := view this in VarView_copy_from_host v val)%host.

(** [DeviceVar(DeviceVar&& other)] *)
Definition DeviceVar_move (this other : positive) : M world transfer_error unit :=
  (let* d := get_m_data other in
   run set_m_data this d then
   set_m_data other None)%host.

(** [operator T() const] *)
Definition to_T (this : positive) : M world transfer_error T :=
  (let* v := view this in VarView_copy_to v)%host.

(** [viewer()], [cviewer()]: the raw storage address. *)
Definition viewer (this : positive) : M world transfer_error (option positive) :=
  get_m_data this.

(** *** var.h *)

(** [var_base()] *)
Definition var_base_default : M world transfer_error var_base :=
  (let* l := alloc in ret (VarBase l))%host.

(** [operator=(const T& rhs)] *)
Definition var_base_assign (this : var_base) (rhs : T) : M world transfer_error unit :=
  fill_n_1 (vb_data this) rhs.

(** [var_base(const T& value)] *)
Definition var_base_from_value (value : T) : M world transfer_error var_base :=
  (let* l := alloc in
   run var_base_assign (VarBase l) value then
   ret (VarBase l))%host.

(** [~var_base()] *)
Definition var_base_destroy (this : var_base) : M world transfer_error unit :=
  deallocate (vb_data this).

(** [operator T()] *)
Definition var_base_to_T (this : var_base) : M world transfer_error T :=
  copy_n_1 (vb_data this).

(** A scalar object at [this] that owns live storage. *)
Definition live (w : world) (this : positive) : Prop :=
  exists l, vars w !! this = Some (Some l) /\ is_Some (mem w !! l).

(** What an assignment must leave alone: every scalar's storage
    pointer, and the set of allocated cells. *)
Definition keeps_storage (w : world) (r : outcome transfer_error unit * world) : Prop :=
  vars r.2 = vars w /\ dom (mem r.2) = dom (mem w).

(** Every cell but the storage of the scalar at [this] holds what it
    held. *)
Definition writes_own_cell (w : world) (this : positive)
  (r : outcome transfer_error unit * world) : Prop :=
  forall l, vars w !! this <> Some (Some l) -> mem r.2 !! l = mem w !! l.

(** The scalar object at [this] owns live storage that holds [v]. *)
Definition holds (w : world) (this : positive) (v : T) : Prop :=
  exists l, vars w !! this = Some (Some l) /\ mem w !! l = Some v.

(** Every scalar's storage pointer, if not null, addresses an allocated
    cell, and no two scalars have the same storage. *)
Definition owns_exclusively (w : world) : Prop :=
  (forall o l, vars w !! o = Some (Some l) -> l ∈ dom (mem w))
  /\ (forall o1 o2 l,
        vars w !! o1 = Some (Some l) -> vars w !! o2 = Some (Some l) -> o1 = o2).

End Scalar.

Arguments world : clear implicits.

(** A world with one [DeviceVar<Z>] at address 1 holding 5, and one
    [var_base] whose storage is cell 2. *)
Definition w_example : world Z :=
  ((run DeviceVar_from_value 1%positive 5 then var_base_from_value 8)%host
     (world0 (fun _ => 0))).2.

(** The same with a second [DeviceVar<Z>], at address 3 and holding 7. *)
Definition w_example2 : world Z :=
  (DeviceVar_from_value 3%positive 7 w_example).2.

End DeviceScalar.

(** ** graph_viewer.inl *)
Module GraphViewer.

(** [cudaStream_t]: the two reserved device-side launch streams and every
    other handle. *)
Inductive cudaStream_t : Type :=
  | cudaStreamGraphTailLaunch
  | cudaStreamGraphFireAndForget
  | stream_handle (h : Z).

#[global] Instance cudaStream_t_eq_dec : EqDecision cudaStream_t.
Proof. solve_decision. Defined.

(** What device code reports before it stops. *)
Inductive report : Type :=
  | KernelAssert (msg : string)
  | KernelError (kernel_name name error_string : string) (code : Z) (graph : Z).

Definition cudaSuccess : Z := 0.

Definition invalid_stream_msg : string :=
  "Launch Graph on device with invalid stream! Only Stream::GraphTailLaunch{} and Stream::GraphFireAndForget{} are allowed".

Section Viewer.
(** The runtime: what [cudaGraphLaunch] answers, [cudaGetErrorString],
    and the names the viewer reports. *)
Variable cudaGraphLaunch : Z -> cudaStream_t -> Z.
Variable cudaGetErrorString : Z -> string.
Variables kernel_name name : string.

(** [device] tells whether [__CUDA_ARCH__] is defined. *)
Variable device : bool.

Record GraphViewer : Type := MkGraphViewer { m_graph : Z }.

(** The state is the list of graph launches handed to the runtime. *)
Definition launches : Type := list (Z * cudaStream_t).

(** Modelled from the spec: the macro [MUDA_KERNEL_ASSERT(cond, msg)] is
    not defined in the sources verified here.  A failed check is a fatal
    condition: it is reported and the execution unit goes no further. *)
Definition MUDA_KERNEL_ASSERT (cond : bool) (msg : string) : M launches report unit :=
  if cond then ret tt else throw (KernelAssert msg).

(** Modelled from the spec: the macro
    [MUDA_KERNEL_ERROR_WITH_LOCATION(fmt, ...)] is not defined in the
    sources verified here.  It reports its arguments and is fatal as
    well. *)
Definition MUDA_KERNEL_ERROR_WITH_LOCATION (kn n es : string) (code graph : Z)
  : M launches report unit :=
  throw (KernelError kn n es code graph).

Definition call_cudaGraphLaunch (g : Z) (stream : cudaStream_t) : M launches report Z :=
  fun ls => (Ret (cudaGraphLaunch g stream), ls ++ [(g, stream)]).

Definition launch (this : GraphViewer) (stream : cudaStream_t) : M launches report unit :=
  (run (if device then
          MUDA_KERNEL_ASSERT
            (bool_decide (stream = cudaStreamGraphTailLaunch)
             || bool_decide (stream = cudaStreamGraphFireAndForget))
            invalid_stream_msg
        else ret tt) then
   let* graph_viewer_error_code := call_cudaGraphLaunch (m_graph this) stream in
   if negb (graph_viewer_error_code =? cudaSuccess) then
     let error_string := cudaGetErrorString graph_viewer_error_code in
     MUDA_KERNEL_ERROR_WITH_LOCATION kernel_name name error_string
                                     graph_viewer_error_code (m_graph this)
   else ret tt)%host.

Definition tail_launch (this : GraphViewer) : M launches report unit :=
  if device then launch this cudaStreamGraphTailLaunch else ret tt.

Definition fire_and_forget (this : GraphViewer) : M launches report unit :=
  if device then launch this cudaStreamGraphFireAndForget else ret tt.

(** The two legal launch contexts. *)
Definition legal_context (stream : cudaStream_t) : Prop :=
  stream = cudaStreamGraphTailLaunch \/ stream = cudaStreamGraphFireAndForget.


End Viewer.

End GraphViewer.

(** ** What the specification speaks of *)
Module Spec.

(** [ceil(a / b)] for the rational quotient; [Z]'s [/] rounds down. *)
Definition ceil_div (a b : Z) : Z := - ((- a) / b).

(** An index lies strictly before [end] in the direction of [step]. *)
Definition before_end (step i end_ : Z) : bool :=
  if 0 <? step then i <? end_ else end_ <? i.

(** The indices [begin, begin+step, begin+2*step, ...] strictly before
    [end], in that order.  As [|step| >= 1], none is left after
    [|end - begin|] steps. *)
Definition domain_indices (begin end_ step : Z) : list Z :=
  filter (fun i => before_end step i end_ = true)
         ((fun k => begin + step * k) <$> seqZ 0 (Z.abs (end_ - begin) + 1)).

(** What one unit of a grid-stride dispatch over [n] positions works
    through when there are [N] units: [unit_id + k * N] for
    [k = 0, 1, ...] while that is below [n]. *)
Definition unit_positions (n N unit_id : Z) : list Z :=
  (fun k => unit_id + k * N) <$> seqZ 0 (ceil_div (n - unit_id) N).

(** The Iteration Domain invariant. *)
Definition valid_domain (begin end_ step : Z) : Prop :=
  step <> 0 /\ 0 <= step * (end_ - begin).

(** The range is rejected: [step] is zero or points away from [end]. *)
Definition invalid_range (begin end_ step : Z) : Prop :=
  step = 0 \/ step * (end_ - begin) < 0.

Import ParallelFor.

(** The grid dimension of a dispatch, when it has one: computed under the
    bounded strategy, configured under the grid-stride strategy. *)
Definition dispatch_gridDim (this : parallel_for) (begin end_ step : Z) : option Z :=
  if gridDim this <=? 0 then calculateGridDim this begin end_ step
  else Some (gridDim this).

(** The descriptor [asNodeParms] leaves on the heap when the grid
    dimension is [G]. *)
Definition built_descriptor {F} (this : parallel_for) (G : Z) (begin end_ step : Z)
  (f : F) (l : positive)
  : kernelNodeParms F :=
  KernelNodeParms
    (Some (if gridDim this <=? 0 then parallelForKernel_entry
           else gridStrideLoopKernel_entry))
    G
    (blockDim this) (sharedMemSize this)
    [Ptr l f_callable; Ptr l f_begin; Ptr l f_end; Ptr l f_step]
    (KernelData begin step end_ f).



(** What a call of [apply] that gets past [checkInput] launches, when the
    grid dimension is [G]. *)
Definition issued_by {F} (this : parallel_for) (G : Z) (begin end_ step : Z) (f : F)
  : list (launch F) :=
  if gridDim this <=? 0 then
    if negb (begin =? end_) then
      [Launch parallelForKernel_entry G
              (blockDim this) (sharedMemSize this) f begin end_ step]
    else []
  else
    [Launch gridStrideLoopKernel_entry (gridDim this) (blockDim this)
            (sharedMemSize this) f begin end_ step].

End Spec.

(** * Properties *)

Import CInt ParallelFor Spec.

Section CIntFacts.

Lemma to_int_id z : in_int z -> to_int z = z.
Proof.
  unfold in_int, to_int, int_min, int_max, uint_mod. intros H.
  rewrite Z.mod_small by lia. lia.
Qed.

Lemma to_uint_id z : 0 <= z < uint_mod -> to_uint z = z.
Proof. unfold to_uint. intros H. now apply Z.mod_small. Qed.

Lemma to_uint_range z : 0 <= to_uint z < uint_mod.
Proof. unfold to_uint, uint_mod. apply Z.mod_pos_bound. lia. Qed.

Lemma in_int_0 : in_int 0.
Proof. unfold in_int, int_min, int_max. lia. Qed.

(** Truncating division plus one for a remainder is the ceiling when the
    operands agree in sign. *)
Lemma quot_ceil a b :
  b <> 0 -> 0 <= b * a ->
  Z.quot a b + (if negb (Z.rem a b =? 0) then 1 else 0) = ceil_div a b.
Proof.
  intros Hb Hab. unfold ceil_div.
  destruct (Z.eqb_spec (Z.rem a b) 0) as [Hr | Hr]; simpl;
    Z.to_euclidean_division_equations; nia.
Qed.

Lemma quot_ceil_pos n b :
  0 <= n -> 0 < b ->
  Z.quot n b + (if Z.rem n b >? 0 then 1 else 0) = ceil_div n b.
Proof.
  intros Hn Hb. unfold ceil_div.
  destruct (Z.gtb_spec (Z.rem n b) 0) as [Hr | Hr];
    Z.to_euclidean_division_equations; nia.
Qed.

(** The ceiling is the least integer not below the quotient. *)
Lemma ceil_div_spec a b n :
  0 < b -> (ceil_div a b = n <-> b * (n - 1) < a <= b * n).
Proof.
  intros Hb. unfold ceil_div. Z.to_euclidean_division_equations. nia.
Qed.

Lemma ceil_div_spec_neg a b n :
  b < 0 -> (ceil_div a b = n <-> b * n <= a < b * (n - 1)).
Proof.
  intros Hb. unfold ceil_div. Z.to_euclidean_division_equations. nia.
Qed.

(** Where [/] and [%] do not trap they are [Z]'s truncating division. *)
Lemma traps_false a b :
  b <> 0 -> (a = int_min -> b <> -1) -> traps a b = false.
Proof.
  intros Hb Hm. unfold traps.
  destruct (Z.eqb_spec b 0) as [| _]; [done |]. simpl.
  destruct (Z.eqb_spec a int_min) as [Ha | _]; [| done]. simpl.
  destruct (Z.eqb_spec b (-1)) as [Hb1 | _]; [| done]. by destruct (Hm Ha).
Qed.

Lemma div_defined a b :
  b <> 0 -> (a = int_min -> b <> -1) -> div a b = Some (to_int (Z.quot a b)).
Proof. intros Hb Hm. unfold div. by rewrite traps_false. Qed.

Lemma rem_defined a b :
  b <> 0 -> (a = int_min -> b <> -1) -> rem a b = Some (Z.rem a b).
Proof. intros Hb Hm. unfold rem. by rewrite traps_false. Qed.

End CIntFacts.


Section GridDim.

(** The number of threads [calculateGridDim] asks for, before it is
    rounded up to whole blocks. *)
Lemma nMinthread_ceil (begin end_ step : Z) :
  in_int (end_ - begin) -> in_int (ceil_div (end_ - begin) step) ->
  valid_domain begin end_ step ->
  div (sub end_ begin) step = Some (Z.quot (end_ - begin) step)
  /\ rem (sub end_ begin) step = Some (Z.rem (end_ - begin) step)
  /\ add (Z.quot (end_ - begin) step)
         (if negb (Z.rem (end_ - begin) step =? 0) then 1 else 0)
     = ceil_div (end_ - begin) step
  /\ 0 <= ceil_div (end_ - begin) step <= int_max.
Proof.
  intros Hs Hn [Hst Hv].
  unfold sub. rewrite (to_int_id (end_ - begin)) by done.
  set (d := end_ - begin) in *.
  pose proof (quot_ceil d step Hst Hv) as Hc.
  assert (Hq : 0 <= Z.quot d step <= ceil_div d step).
  { rewrite <- Hc. destruct (Z.eqb_spec (Z.rem d step) 0); simpl;
      Z.to_euclidean_division_equations; nia. }
  assert (Hm : d = int_min -> step <> -1).
  { intros -> ->. revert Hn. unfold in_int, int_min, int_max. vm_compute.
    intros [_ H]. by apply H. }
  rewrite div_defined, rem_defined by done.
  rewrite to_int_id by (unfold in_int, int_min, int_max in *; lia).
  split; [done |]. split; [done |].
  unfold add. rewrite Hc. rewrite to_int_id by done.
  unfold in_int, int_min, int_max in *. split; [done | lia].
Qed.

(** The whole blocks needed for [n] threads. *)
Lemma nMinblocks_ceil (n B : Z) :
  0 <= n <= int_max -> 0 < B ->
  div n B = Some (Z.quot n B)
  /\ rem n B = Some (Z.rem n B)
  /\ add (Z.quot n B) (if Z.rem n B >? 0 then 1 else 0) = ceil_div n B
  /\ 0 <= ceil_div n B <= n.
Proof.
  intros Hn Hpos.
  assert (Hq : in_int (Z.quot n B)).
  { unfold in_int, int_min, int_max in *.
    Z.to_euclidean_division_equations; nia. }
  assert (Hm : n = int_min -> B <> -1) by lia.
  rewrite div_defined, rem_defined by lia.
  rewrite (to_int_id _ Hq).
  pose proof (quot_ceil_pos n B (proj1 Hn) Hpos) as Hc.
  assert (Hrange : 0 <= ceil_div n B <= n).
  { rewrite <- Hc.
    destruct (Z.gtb_spec (Z.rem n B) 0);
      Z.to_euclidean_division_equations; nia. }
  split; [done |]. split; [done |]. split; [| done].
  unfold add. rewrite to_int_id; [done |].
  rewrite Hc. unfold in_int, int_min, int_max in *. lia.
Qed.

(** [calculateGridDim] on a valid domain whose difference and number of
    threads are within [int]. *)
Lemma calculateGridDim_value (this : parallel_for) (begin end_ step : Z) :
  in_int (end_ - begin) -> in_int (ceil_div (end_ - begin) step) ->
  valid_domain begin end_ step ->
  0 < blockDim this ->
  calculateGridDim this begin end_ step
  = Some (ceil_div (ceil_div (end_ - begin) step) (blockDim this)).
Proof.
  intros Hs Hn Hv Hpos. unfold calculateGridDim.
  destruct (nMinthread_ceil begin end_ step Hs Hn Hv) as (-> & -> & Hc & Hr).
  unfold mbind, option_bind. rewrite Hc.
  destruct (nMinblocks_ceil _ (blockDim this) Hr Hpos) as (-> & -> & -> & _).
  reflexivity.
Qed.


(** ** C5 *)

(** C5, as the specification has it, fails where [end - begin] is not an
    [int]: the domain from -2147483647 to 2147483647 by steps of
    2147483647 is valid and has two indices, so with [blockDim = 1] the
    claim gives two blocks; the difference wraps around to -2 and
    [calculateGridDim] returns 1. *)
Lemma calculateGridDim_difference_wraps :
  (in_int (-2147483647) /\ in_int 2147483647)
  /\ valid_domain (-2147483647) 2147483647 2147483647
  /\ 0 < blockDim (parallel_for_auto 1 0)
  /\ ceil_div (ceil_div (2147483647 - -2147483647) 2147483647)
              (blockDim (parallel_for_auto 1 0)) = 2
  /\ calculateGridDim (parallel_for_auto 1 0) (-2147483647) 2147483647 2147483647
     = Some 1.
Proof.
  unfold valid_domain, in_int, int_min, int_max.
  repeat split; try lia; vm_compute; congruence.
Qed.

(** C5, as amended. Under the bounded strategy the grid dimension that
    [calculateGridDim] computes is [ceil(nMinThreads / blockDim)] with
    [nMinThreads = ceil((end - begin) / step)], for every valid domain
    whose difference [end - begin] and number of threads [nMinThreads]
    are within [int], and every positive [blockDim]; for
    [begin=0, end=10, step=1, blockDim=4] it is 3. *)
Theorem calculateGridDim_ceil (this : parallel_for) (begin end_ step : Z) :
  in_int begin -> in_int end_ -> in_int step -> in_int (blockDim this) ->
  in_int (end_ - begin) -> in_int (ceil_div (end_ - begin) step) ->
  valid_domain begin end_ step ->
  0 < blockDim this ->
  let nMinThreads := ceil_div (end_ - begin) step in
  calculateGridDim this begin end_ step
  = Some (ceil_div nMinThreads (blockDim this))
  /\ calculateGridDim (parallel_for_auto 4 0) 0 10 1 = Some 3.
Proof.
  intros _ _ _ _ Hs Hn Hv Hpos nMinThreads. split; [| reflexivity].
  by apply calculateGridDim_value.
Qed.

Lemma calculateGridDim_ceil_witness :
  calculateGridDim (ParallelFor 0 4 0) 3 20 5
  = Some (ceil_div (ceil_div (20 - 3) 5) 4)
  /\ calculateGridDim (parallel_for_auto 4 0) 0 10 1 = Some 3.
Proof.
  apply (calculateGridDim_ceil (ParallelFor 0 4 0) 3 20 5);
    unfold valid_domain, in_int, int_min, int_max; simpl; try lia;
    vm_compute; split; congruence.
Defined.

End GridDim.
Section Validation.
Context {F : Type}.
Implicit Types (this : parallel_for) (f : F) (h : host F).

Lemma invalid_range_signs begin end_ step :
  invalid_range begin end_ step <->
  step = 0 \/ (0 < step /\ end_ < begin) \/ (step < 0 /\ begin < end_).
Proof. unfold invalid_range. nia. Qed.

Lemma checkInput_throws {S} begin end_ step (s : S) :
  in_int (end_ - begin) -> in_int (step * (end_ - begin)) ->
  (invalid_range begin end_ step ->
   exists e, checkInput begin end_ step s = (Throw e, s))
  /\ (~ invalid_range begin end_ step ->
      checkInput begin end_ step s = (Ret tt, s)).
Proof.
  intros Hs Hp. unfold checkInput, invalid_range, mul, sub.
  rewrite (to_int_id _ Hs), (to_int_id _ Hp).
  destruct (Z.eqb_spec step 0) as [-> | Hne].
  - split; [eauto | intros []; by left].
  - destruct (Z.ltb_spec (step * (end_ - begin)) 0) as [Hlt | Hge].
    + split; [eauto | intros []; by right].
    + split; [intros [? | ?]; [done | lia] | done].
Qed.

Lemma checkInput_cases {S} begin end_ step (s : S) :
  checkInput begin end_ step s = (Ret tt, s)
  \/ exists e, checkInput begin end_ step s = (Throw e, s).
Proof.
  unfold checkInput, throw, ret.
  destruct (step =? 0); [eauto |].
  destruct (mul step (sub end_ begin) <? 0); eauto.
Qed.

(** A call that gets past [checkInput] continues with the state it had. *)
Lemma apply_valid this begin end_ step f h :
  checkInput begin end_ step h = (Ret tt, h) ->
  apply this begin end_ step f h =
    if gridDim this <=? 0 then
      if negb (begin =? end_) then
        match calculateGridDim this begin end_ step with
        | Some nBlocks =>
            launch_kernel (Launch parallelForKernel_entry nBlocks (blockDim this)
                                  (sharedMemSize this) f begin end_ step) h
        | None => (Undefined, h)
        end
      else (Ret tt, h)
    else
      launch_kernel (Launch gridStrideLoopKernel_entry (gridDim this) (blockDim this)
                            (sharedMemSize this) f begin end_ step) h.
Proof.
  intros Hc. unfold apply, bind. rewrite Hc.
  destruct (gridDim this <=? 0); [destruct (negb (begin =? end_)) |];
    [| reflexivity ..].
  by destruct (calculateGridDim this begin end_ step).
Qed.

Lemma apply_invalid this begin end_ step f h e :
  checkInput begin end_ step h = (Throw e, h) ->
  apply this begin end_ step f h = (Throw e, h).
Proof. intros Hc. unfold apply, bind. by rewrite Hc. Qed.

Lemma asNodeParms_invalid this begin end_ step f h e :
  checkInput begin end_ step h = (Throw e, h) ->
  asNodeParms this begin end_ step f h = (Throw e, h).
Proof. intros Hc. unfold asNodeParms, bind. by rewrite Hc. Qed.

Lemma asNodeParms_valid this begin end_ step f h :
  checkInput begin end_ step h = (Ret tt, h) ->
  let l := fresh (dom (heap h)) in
  asNodeParms this begin end_ step f h =
    match dispatch_gridDim this begin end_ step with
    | Some G =>
        (Ret l, Host (stream_ h)
                     (<[l := built_descriptor this G begin end_ step f l]> (heap h)))
    | None =>
        (Undefined,
         Host (stream_ h)
              (<[l := KernelNodeParms None 0 0 0 [] (KernelData begin step end_ f)]>
                 (heap h)))
    end.
Proof.
  intros Hc l. unfold asNodeParms, bind at 1. rewrite Hc.
  unfold bind at 1. unfold make_shared. fold l.
  unfold built_descriptor, dispatch_gridDim.
  destruct (gridDim this <=? 0);
    [destruct (calculateGridDim this begin end_ step) |];
    unfold bind, defined, undefined, set_func, set_gridDim, set_blockDim,
      set_sharedMemBytes, parse, update, modify, ret; simpl;
    rewrite ?alter_insert_eq; reflexivity.
Qed.

(** [checkInput] on an empty domain. *)
Lemma checkInput_empty {S} begin step (s : S) :
  step <> 0 -> checkInput begin begin step s = (Ret tt, s).
Proof.
  intros Hne. unfold checkInput, mul, sub. rewrite Z.sub_diag.
  destruct (Z.eqb_spec step 0); [done |].
  replace (to_int 0) with 0 by reflexivity. rewrite Z.mul_0_r.
  reflexivity.
Qed.


Lemma fresh_heap_loc h : heap h !! fresh (dom (heap h)) = None.
Proof. apply not_elem_of_dom, is_fresh. Qed.

End Validation.

Section Dispatch.
Context {F : Type}.
Implicit Types (this : parallel_for) (f : F) (h : host F).

(** ** C3 *)

(** C3. [checkInput] tests the sign of the [int] product
    [step * (end - begin)], which wraps around.  The domain from 0 to
    1000000 by steps of 3000 is valid ([step] and [end - begin] are both
    positive), yet the product 3000000000 wraps to a negative [int]:
    [apply] and [asNodeParms] throw the step-direction error, whatever the
    configuration.  The range from 65536 to 0 by steps of 65536 is
    invalid ([step] points away from [end]), yet the product wraps to 0:
    neither [apply] nor [asNodeParms] throws. *)
Theorem checkInput_product_wraps this f h :
  (in_int 0 /\ in_int 1000000 /\ in_int 3000 /\ in_int 65536)
  /\ ~ invalid_range 0 1000000 3000
  /\ apply this 0 1000000 3000 f h =
       (Throw (LogicError "step direction is not consistent with [begin, end)!"), h)
  /\ asNodeParms this 0 1000000 3000 f h =
       (Throw (LogicError "step direction is not consistent with [begin, end)!"), h)
  /\ invalid_range 65536 0 65536
  /\ ~ throws (apply this 65536 0 65536 f h).1
  /\ ~ throws (asNodeParms this 65536 0 65536 f h).1.
Proof.
  assert (Hthrow : checkInput 0 1000000 3000 h =
            (Throw (LogicError "step direction is not consistent with [begin, end)!"), h)).
  { unfold checkInput.
    replace (mul 3000 (sub 1000000 0) <? 0) with true by (by vm_compute).
    reflexivity. }
  assert (Hpass : checkInput 65536 0 65536 h = (Ret tt, h)).
  { unfold checkInput.
    replace (mul 65536 (sub 0 65536) <? 0) with false by (by vm_compute).
    reflexivity. }
  split; [unfold in_int, int_min, int_max; lia |].
  split; [unfold invalid_range; lia |].
  split; [by apply apply_invalid |].
  split; [by apply asNodeParms_invalid |].
  split; [unfold invalid_range; lia |].
  split.
  - rewrite (apply_valid _ _ _ _ _ _ Hpass). unfold launch_kernel, modify.
    destruct (gridDim this <=? 0); [destruct (negb (65536 =? 0)) |];
      [destruct (calculateGridDim this 65536 0 65536) | |]; simpl; tauto.
  - rewrite (asNodeParms_valid _ _ _ _ _ _ Hpass).
    destruct (dispatch_gridDim this 65536 0 65536); simpl; tauto.
Qed.

(** X19. For [int] arguments whose difference [end - begin] and product
    [step * (end - begin)] are within [int], [apply] and [asNodeParms]
    throw the logic error if and only if [step == 0] or
    [step * (end - begin) < 0], that is, [step] is zero or its sign
    disagrees with that of [end - begin]; when they throw, the state is the
    one they were called in: nothing was launched and no descriptor was
    allocated.  [begin == end] with a nonzero [step] does not throw. *)
Theorem invalid_range_error this begin end_ step f h :
  in_int begin -> in_int end_ -> in_int step ->
  in_int (end_ - begin) -> in_int (step * (end_ - begin)) ->
  (throws (apply this begin end_ step f h).1 <-> invalid_range begin end_ step)
  /\ (throws (asNodeParms this begin end_ step f h).1 <-> invalid_range begin end_ step)
  /\ (invalid_range begin end_ step <->
      step = 0 \/ (0 < step /\ end_ < begin) \/ (step < 0 /\ begin < end_))
  /\ (throws (apply this begin end_ step f h).1 ->
      (apply this begin end_ step f h).2 = h)
  /\ (throws (asNodeParms this begin end_ step f h).1 ->
      (asNodeParms this begin end_ step f h).2 = h)
  /\ (begin = end_ -> step <> 0 ->
      ~ throws (apply this begin end_ step f h).1
      /\ ~ throws (asNodeParms this begin end_ step f h).1).
Proof.
  intros _ _ _ Hs Hp.
  destruct (checkInput_throws begin end_ step h Hs Hp) as [Hbad Hok].
  assert (Hdec : invalid_range begin end_ step \/ ~ invalid_range begin end_ step).
  { unfold invalid_range. lia. }
  assert (Happ : ~ invalid_range begin end_ step ->
                 ~ throws (apply this begin end_ step f h).1).
  { intros Hn. rewrite (apply_valid _ _ _ _ _ _ (Hok Hn)).
    unfold launch_kernel, modify.
    destruct (gridDim this <=? 0); [destruct (negb (begin =? end_)) |];
      [destruct (calculateGridDim this begin end_ step) | |]; simpl; tauto. }
  assert (Hnode : ~ invalid_range begin end_ step ->
                  ~ throws (asNodeParms this begin end_ step f h).1).
  { intros Hn. rewrite (asNodeParms_valid _ _ _ _ _ _ (Hok Hn)).
    destruct (dispatch_gridDim this begin end_ step); simpl; tauto. }
  split_and!.
  - split; [tauto |]. intros Hi. destruct (Hbad Hi) as [e He].
    by rewrite (apply_invalid _ _ _ _ _ _ _ He).
  - split; [tauto |]. intros Hi. destruct (Hbad Hi) as [e He].
    by rewrite (asNodeParms_invalid _ _ _ _ _ _ _ He).
  - apply invalid_range_signs.
  - intros Ht. destruct Hdec as [Hi | Hn]; [| tauto].
    destruct (Hbad Hi) as [e He]. by rewrite (apply_invalid _ _ _ _ _ _ _ He).
  - intros Ht. destruct Hdec as [Hi | Hn]; [| tauto].
    destruct (Hbad Hi) as [e He]. by rewrite (asNodeParms_invalid _ _ _ _ _ _ _ He).
  - intros -> Hne.
    assert (Hn : ~ invalid_range end_ end_ step) by (unfold invalid_range; lia).
    tauto.
Qed.

(** ** C4 *)

(** C4. Only the bounded branch of [apply] is guarded by [begin != end].
    On the empty domain from 5 to 5 by steps of -1 the bounded strategy
    issues nothing, but the grid-stride strategy, here with one block of
    two threads, launches its kernel all the same, and the launch calls
    [f]: the second thread starts at index 4, which passes the test
    [i < end], and goes on to 2 and 0. *)
Theorem grid_stride_launches_on_empty_domain f h :
  valid_domain 5 5 (-1)
  /\ domain_indices 5 5 (-1) = []
  /\ apply (parallel_for_auto 2 0) 5 5 (-1) f h = (Ret tt, h)
  /\ apply (parallel_for_stride 1 2 0) 5 5 (-1) f h =
       (Ret tt,
        Host (stream_ h ++ [Launch gridStrideLoopKernel_entry 1 2 0 f 5 5 (-1)])
             (heap h))
  /\ run_stream 3 [Launch gridStrideLoopKernel_entry 1 2 0 f 5 5 (-1)]
     = Trace [4; 2; 0] true.
Proof.
  assert (Hc : checkInput 5 5 (-1) h = (Ret tt, h)) by (by apply checkInput_empty).
  split; [unfold valid_domain; lia |].
  split; [by vm_compute |].
  split; [by rewrite (apply_valid _ _ _ _ _ _ Hc) |].
  split; [by rewrite (apply_valid _ _ _ _ _ _ Hc) |].
  by vm_compute.
Qed.

(** ** C6 *)

(** C6. A descriptor that [asNodeParms] has built lies at a fresh heap
    address and its argument-pointer list has exactly four entries: the
    addresses of the [callable], [begin], [end] and [step] members, in
    that order, of the payload that the descriptor itself holds; read
    through, they give the callable and the three bounds that were
    passed. *)
Theorem asNodeParms_argument_pointers this begin end_ step f h parms h' :
  asNodeParms this begin end_ step f h = (Ret parms, h') ->
  heap h !! parms = None
  /\ exists d,
      heap h' !! parms = Some d
      /\ kp_data d = KernelData begin step end_ f
      /\ kp_kernelParams d =
           [Ptr parms f_callable; Ptr parms f_begin; Ptr parms f_end; Ptr parms f_step]
      /\ length (kp_kernelParams d) = 4%nat
      /\ load h' <$> kp_kernelParams d =
           [Some (VCallable f); Some (VInt begin); Some (VInt end_); Some (VInt step)].
Proof.
  intros Hrun.
  destruct (checkInput_cases begin end_ step h) as [Hc | [e Hc]].
  - rewrite (asNodeParms_valid _ _ _ _ _ _ Hc) in Hrun.
    destruct (dispatch_gridDim this begin end_ step) as [G |]; [| discriminate].
    injection Hrun as <- <-. split; [apply fresh_heap_loc |].
    eexists. split; [simpl; apply lookup_insert_eq |].
    split_and!; try reflexivity.
    unfold load. simpl. rewrite !lookup_insert_eq. reflexivity.
  - rewrite (asNodeParms_invalid _ _ _ _ _ _ _ Hc) in Hrun. discriminate.
Qed.

(** ** C7 *)



End Dispatch.

Section DispatchExamples.

Local Ltac int_range :=
  unfold valid_domain, in_int, int_min, int_max; simpl; lia.

Lemma invalid_range_error_witness :
  (in_int 0 /\ in_int 10 /\ in_int (-1) /\ in_int (10 - 0) /\ in_int (-1 * (10 - 0)))
  /\ (throws (apply (parallel_for_auto 4 0) 0 10 (-1) tt host0).1 <->
      invalid_range 0 10 (-1))
  /\ (throws (apply (parallel_for_auto 4 0) 0 10 (-1) tt host0).1 ->
      (apply (parallel_for_auto 4 0) 0 10 (-1) tt host0).2 = host0).
Proof.
  split; [repeat split; int_range |].
  destruct (invalid_range_error (parallel_for_auto 4 0) 0 10 (-1) tt host0)
    as (Ha & _ & _ & Hs & _); [int_range .. |].
  exact (conj Ha Hs).
Defined.

Lemma asNodeParms_argument_pointers_witness :
  exists d,
    heap (asNodeParms (parallel_for_auto 4 0) 0 10 1 tt host0).2 !! 1%positive = Some d
    /\ kp_kernelParams d =
         [Ptr 1 f_callable; Ptr 1 f_begin; Ptr 1 f_end; Ptr 1 f_step].
Proof.
  destruct (asNodeParms_argument_pointers (parallel_for_auto 4 0) 0 10 1 tt host0
              1%positive (asNodeParms (parallel_for_auto 4 0) 0 10 1 tt host0).2)
    as (_ & d & Hd & _ & Hp & _); [vm_compute; reflexivity |].
  exists d. exact (conj Hd Hp).
Defined.



End DispatchExamples.

(** ** Forward domains from zero on: the bounded dispatch is exact *)
Section BindSeqZ.
Context {A : Type}.
Implicit Types (g : Z -> list A) (e : Z -> A).

Lemma bind_all_singleton g e (l : list Z) :
  Forall (fun k => g k = [e k]) l -> l ≫= g = e <$> l.
Proof.
  induction 1 as [| k l Hk _ IH]; [done |].
  rewrite bind_cons, fmap_cons, Hk, IH. done.
Qed.

Lemma bind_all_nil g (l : list Z) :
  Forall (fun k => g k = []) l -> l ≫= g = [].
Proof.
  induction 1 as [| k l Hk _ IH]; [done |].
  by rewrite bind_cons, Hk, IH.
Qed.

(** A function that yields one element below a threshold and none from it
    on keeps a prefix. *)
Lemma bind_seqZ_threshold g e (n m : Z) :
  0 <= n <= m ->
  (forall k, 0 <= k < n -> g k = [e k]) ->
  (forall k, n <= k < m -> g k = []) ->
  seqZ 0 m ≫= g = e <$> seqZ 0 n.
Proof.
  intros Hnm Hlow Hhigh.
  replace m with (n + (m - n)) by lia.
  rewrite seqZ_app, bind_app by lia.
  rewrite (bind_all_singleton g e), (bind_all_nil g), app_nil_r; [done | |].
  - apply Forall_seqZ. intros k Hk. apply Hhigh. lia.
  - apply Forall_seqZ. intros k Hk. apply Hlow. lia.
Qed.

(** Blocks of [B] threads, block after block, enumerate the thread ids
    [0 .. G*B - 1] in order. *)
Lemma bind_blocks g (G B : Z) :
  0 <= G -> 0 <= B ->
  (seqZ 0 G ≫= fun b => seqZ 0 B ≫= fun t => g (b * B + t)) = seqZ 0 (G * B) ≫= g.
Proof.
  intros HG HB. revert G HG. apply natlike_ind.
  - done.
  - intros G HG IH.
    rewrite <- Z.add_1_r.
    rewrite seqZ_app by lia.
    replace ((G + 1) * B) with (G * B + B) by lia.
    rewrite (seqZ_app 0 (G * B) B) by nia.
    rewrite !bind_app, IH, !Z.add_0_l. f_equal.
    rewrite (seqZ_cons G 1) by lia. rewrite (seqZ_nil (Z.succ G)) by lia.
    rewrite bind_singleton.
    assert (seqZ (G * B) B = Z.add (G * B) <$> seqZ 0 B) as ->
      by (rewrite fmap_add_seqZ; f_equal; lia).
    by rewrite list_fmap_bind.
Qed.

Lemma list_bind_bind {B C} (f : A -> list B) (h : B -> list C) (l : list A) :
  (l ≫= f) ≫= h = l ≫= fun x => f x ≫= h.
Proof.
  induction l as [| x l IH]; [done |].
  by rewrite !bind_cons, bind_app, IH.
Qed.

End BindSeqZ.

Lemma filter_fmap_seqZ_threshold (P : Z -> Prop) `{!forall x, Decision (P x)}
    (e : Z -> Z) (n m : Z) :
  0 <= n <= m ->
  (forall k, 0 <= k < n -> P (e k)) ->
  (forall k, n <= k < m -> ~ P (e k)) ->
  filter P (e <$> seqZ 0 m) = e <$> seqZ 0 n.
Proof.
  intros Hnm Hlow Hhigh.
  replace m with (n + (m - n)) by lia.
  rewrite seqZ_app, fmap_app, filter_app by lia.
  assert (H1 : filter P (e <$> seqZ 0 n) = e <$> seqZ 0 n).
  { assert (HF : Forall (fun k => P (e k)) (seqZ 0 n)).
    { apply Forall_seqZ. intros k Hk. apply Hlow. lia. }
    induction HF as [| k l Hk _ IH]; [done |].
    by rewrite fmap_cons, filter_cons_True, IH. }
  assert (H2 : filter P (e <$> seqZ (0 + n) (m - n)) = []).
  { assert (HF : Forall (fun k => ~ P (e k)) (seqZ (0 + n) (m - n))).
    { apply Forall_seqZ. intros k Hk. apply Hhigh. lia. }
    induction HF as [| k l Hk _ IH]; [done |].
    by rewrite fmap_cons, filter_cons_False, IH. }
  by rewrite H1, H2, app_nil_r.
Qed.

Section ForwardRuns.
Context {F : Type}.
Implicit Types (this : parallel_for) (f : F) (h : host F).

(** The indices of a forward domain, counted. *)
Lemma domain_indices_forward begin end_ step :
  0 < step -> begin <= end_ ->
  domain_indices begin end_ step =
    (fun k => begin + step * k) <$> seqZ 0 (ceil_div (end_ - begin) step).
Proof.
  intros Hst Hle. unfold domain_indices, before_end.
  destruct (Z.ltb_spec 0 step); [| lia].
  set (n := ceil_div (end_ - begin) step).
  assert (Hn : step * (n - 1) < end_ - begin <= step * n)
    by (by apply ceil_div_spec).
  apply filter_fmap_seqZ_threshold.
  - nia.
  - intros k Hk. apply Z.ltb_lt. nia.
  - intros k Hk. rewrite Z.ltb_lt. nia.
Qed.

Lemma run_stream_singleton fuel (l : launch F) :
  run_stream fuel [l] = run_launch fuel l.
Proof.
  unfold run_stream, trace_seq. rewrite fmap_cons, fmap_nil, bind_singleton.
  cbn [forallb]. rewrite andb_true_r. by destruct (run_launch fuel l).
Qed.

(** One thread of the bounded kernel, when nothing wraps. *)
Lemma parallelForKernel_forward (G B b t begin end_ step : Z) :
  0 <= begin -> 0 <= end_ <= int_max -> 0 < step <= int_max -> 0 < B <= int_max ->
  0 <= b -> 0 <= t < B -> b * B + t < G * B ->
  begin + step * (G * B - 1) < uint_mod ->
  parallelForKernel (Thread (to_uint G) (to_uint B) b t) begin end_ step =
    if begin + step * (b * B + t) <? end_ then [begin + step * (b * B + t)] else [].
Proof.
  intros Hb He Hst HB Hb0 Ht Htid Hwrap.
  unfold parallelForKernel, global_tid, index_at, in_range, uadd, umul.
  cbn [blockDim_x blockIdx_x threadIdx_x].
  unfold int_max, uint_mod in *.
  assert (HGB : G * B <= 2 ^ 32) by nia.
  assert (Hk : 0 <= b * B + t < 2 ^ 32) by nia.
  assert (Hi : 0 <= begin + step * (b * B + t) < 2 ^ 32) by nia.
  rewrite (to_uint_id B) by (unfold uint_mod; lia).
  rewrite (to_uint_id (b * B)) by (unfold uint_mod; nia).
  rewrite (to_uint_id (b * B + t)) by (unfold uint_mod; lia).
  rewrite (to_uint_id step) by (unfold uint_mod; lia).
  rewrite (to_uint_id begin) by (unfold uint_mod; nia).
  rewrite (to_uint_id (step * (b * B + t))) by (unfold uint_mod; nia).
  rewrite (to_uint_id (begin + step * (b * B + t))) by (unfold uint_mod; lia).
  rewrite (to_uint_id end_) by (unfold uint_mod; lia).
  destruct (Z.ltb_spec (begin + step * (b * B + t)) end_); [| done].
  rewrite to_int_id; [done |]. unfold in_int, int_min, int_max. lia.
Qed.

Lemma ceil_div_forward begin end_ step :
  begin <= end_ -> 0 < step ->
  let n := ceil_div (end_ - begin) step in
  0 <= n <= end_ - begin /\ step * (n - 1) < end_ - begin <= step * n.
Proof.
  intros Hle Hst n.
  assert (Hn : step * (n - 1) < end_ - begin <= step * n)
    by (by apply ceil_div_spec).
  split; [nia | done].
Qed.

Lemma calculateGridDim_forward this begin end_ step :
  0 < blockDim this -> begin <= end_ -> 0 < step ->
  in_int (end_ - begin) ->
  let n := ceil_div (end_ - begin) step in
  calculateGridDim this begin end_ step = Some (ceil_div n (blockDim this))
  /\ 0 <= n <= int_max
  /\ step * (n - 1) < end_ - begin <= step * n
  /\ blockDim this * (ceil_div n (blockDim this) - 1) < n
      <= blockDim this * ceil_div n (blockDim this).
Proof.
  intros HB Hle Hst Hs n.
  assert (Hv : valid_domain begin end_ step) by (unfold valid_domain; nia).
  destruct (ceil_div_forward begin end_ step Hle Hst) as [Hn Hstep]. fold n in Hn, Hstep.
  assert (Hi : in_int n) by (unfold in_int, int_min, int_max in *; lia).
  split; [by apply calculateGridDim_value |].
  split; [unfold in_int, int_min, int_max in *; lia |].
  split; [done |]. by apply ceil_div_spec.
Qed.

(** The launch of the bounded strategy on a forward domain that starts at
    zero or above, when no thread's index computation wraps: its threads
    call [f] exactly on the indices of the domain, each once (here: in
    thread order). *)
Lemma bounded_launch_forward (B : Z) begin end_ step f (shared : Z) (fuel : nat) :
  0 < B <= int_max ->
  0 <= begin <= end_ -> end_ <= int_max -> 0 < step <= int_max ->
  let G := ceil_div (ceil_div (end_ - begin) step) B in
  begin + step * (G * B - 1) < uint_mod ->
  run_launch fuel (Launch parallelForKernel_entry G B shared f begin end_ step)
  = Trace ((fun k => begin + step * k) <$> seqZ 0 (ceil_div (end_ - begin) step))
          true.
Proof.
  intros HB Hbe He Hst G Hwrap.
  unfold run_launch, launch_threads.
  cbn [l_func l_gridDim l_blockDim l_begin l_end l_step].
  destruct (ceil_div_forward begin end_ step) as [Hn Hstep]; [lia .. |].
  set (n := ceil_div (end_ - begin) step) in *.
  assert (Hblk : B * (G - 1) < n <= B * G) by (apply ceil_div_spec; [lia | done]).
  assert (HG0 : 0 <= G) by nia.
  f_equal. rewrite list_bind_bind.
  pose (g := fun k : Z =>
               if begin + step * k <? end_ then [begin + step * k] else []).
  trans (seqZ 0 G ≫= fun b => seqZ 0 B ≫= fun t => g (b * B + t)).
  { apply Forall_bind_ext, Forall_seqZ. intros b Hb.
    rewrite list_bind_bind.
    apply Forall_bind_ext, Forall_seqZ. intros t Ht.
    rewrite bind_singleton.
    apply parallelForKernel_forward; try lia; nia. }
  rewrite bind_blocks by lia.
  apply bind_seqZ_threshold.
  - nia.
  - intros k Hk. unfold g. destruct (Z.ltb_spec (begin + step * k) end_); [done | nia].
  - intros k Hk. unfold g. destruct (Z.ltb_spec (begin + step * k) end_); [nia | done].
Qed.

End ForwardRuns.

(** ** Forward domains from zero on: the grid-stride dispatch is exact *)
Section Strides.
Variables n N : Z.
Hypothesis HN : 0 < N.

Lemma unit_positions_done k : n <= k -> unit_positions n N k = [].
Proof.
  intros Hk. unfold unit_positions. rewrite seqZ_nil; [done |].
  unfold ceil_div. Z.to_euclidean_division_equations. nia.
Qed.

Lemma unit_positions_step k :
  k < n -> unit_positions n N k = k :: unit_positions n N (k + N).
Proof.
  intros Hk. unfold unit_positions.
  set (c := ceil_div (n - (k + N)) N).
  assert (Hc : ceil_div (n - k) N = 1 + c /\ 0 <= c).
  { unfold c, ceil_div. Z.to_euclidean_division_equations. nia. }
  destruct Hc as [-> Hc].
  rewrite seqZ_app by lia. rewrite (seqZ_cons 0 1) by lia.
  rewrite (seqZ_nil (Z.succ 0)) by lia.
  rewrite fmap_app. cbn [fmap list_fmap app]. f_equal; [lia |].
  assert (seqZ (0 + 1) c = Z.add 1 <$> seqZ 0 c) as ->
    by (rewrite fmap_add_seqZ; f_equal; lia).
  rewrite <- list_fmap_compose.
  apply list_fmap_ext. intros _ j _. cbn. lia.
Qed.

Lemma elem_of_unit_positions k x :
  x ∈ unit_positions n N k <-> exists j, 0 <= j /\ x = k + j * N /\ x < n.
Proof.
  unfold unit_positions. rewrite list_elem_of_fmap. setoid_rewrite elem_of_seqZ.
  split.
  - intros (j & -> & Hj). exists j. split_and!; [lia | done |].
    revert Hj. unfold ceil_div. Z.to_euclidean_division_equations. nia.
  - intros (j & Hj & -> & Hlt). exists j. split; [done |].
    revert Hlt. unfold ceil_div. Z.to_euclidean_division_equations. nia.
Qed.

(** The units [0 .. N-1] share the positions [0 .. n-1] among them. *)
Lemma unit_positions_partition :
  0 <= n -> seqZ 0 N ≫= unit_positions n N ≡ₚ seqZ 0 n.
Proof.
  intros Hn. apply NoDup_Permutation.
  - apply NoDup_bind; [| | apply NoDup_seqZ].
    + intros k1 k2 x Hk1 Hk2 H1 H2.
      apply elem_of_seqZ in Hk1, Hk2.
      apply elem_of_unit_positions in H1 as (j1 & ? & -> & ?).
      apply elem_of_unit_positions in H2 as (j2 & ? & E & ?).
      assert (j1 = j2) by nia. nia.
    + intros k _. unfold unit_positions.
      apply NoDup_fmap_2_strong; [| apply NoDup_seqZ].
      intros j1 j2 _ _ E. nia.
  - apply NoDup_seqZ.
  - intros x. rewrite list_elem_of_bind, elem_of_seqZ.
    setoid_rewrite elem_of_unit_positions. setoid_rewrite elem_of_seqZ.
    split.
    + intros (k & (j & ? & -> & ?) & ?). nia.
    + intros ?. exists (x mod N). split.
      * exists (x / N). Z.to_euclidean_division_equations. nia.
      * Z.to_euclidean_division_equations. nia.
Qed.

End Strides.

Section StrideRuns.
Context {F : Type}.
Implicit Types (this : parallel_for) (f : F) (h : host F).

(** Threads that all leave their loop, one after the other. *)
Lemma trace_seq_all_finished {A} (k : A -> trace) (g : A -> list Z) (l : list A) :
  Forall (fun x => k x = Trace (g x) true) l ->
  trace_seq (k <$> l) = Trace (l ≫= g) true.
Proof.
  unfold trace_seq. induction 1 as [| x l Hx _ IH]; [done |].
  injection IH as IHc IHf.
  rewrite fmap_cons, !bind_cons. cbn [forallb]. by rewrite Hx, IHc, IHf.
Qed.

Lemma fmap_bind_list {A B C} (e : B -> C) (g : A -> list B) (l : list A) :
  e <$> (l ≫= g) = l ≫= fun x => e <$> g x.
Proof.
  induction l as [| x l IH]; [done |].
  by rewrite !bind_cons, fmap_app, IH.
Qed.

(** The loop of one unit from position [k] on, when nothing wraps and the
    fuel covers the positions left. *)
Lemma gridStrideLoop_forward (th : thread) (begin end_ step n N : Z) :
  0 <= begin -> 0 <= end_ <= int_max -> 0 < step <= int_max -> 0 < N ->
  umul (blockDim_x th) (gridDim_x th) = N ->
  step * (n - 1) < end_ - begin <= step * n ->
  begin + step * (n + N) < uint_mod ->
  forall (fuel : nat) (k : Z),
    0 <= k < n + N -> n - k <= Z.of_nat fuel * N ->
    gridStrideLoop fuel th begin end_ step k =
      Trace ((fun p => begin + step * p) <$> unit_positions n N k) true.
Proof.
  intros Hb He Hst HN HBG Hn Hwrap.
  assert (Hidx : forall k, 0 <= k < n + N ->
            index_at begin step k = begin + step * k
            /\ in_range (begin + step * k) end_ = (k <? n)).
  { intros k Hk. unfold index_at, in_range, uadd, umul, int_max, uint_mod in *.
    rewrite (to_uint_id step) by (unfold uint_mod; lia).
    rewrite (to_uint_id begin) by (unfold uint_mod; nia).
    rewrite (to_uint_id (step * k)) by (unfold uint_mod; nia).
    rewrite (to_uint_id (begin + step * k)) by (unfold uint_mod; nia).
    rewrite (to_uint_id end_) by (unfold uint_mod; lia).
    split; [done |].
    destruct (Z.ltb_spec (begin + step * k) end_), (Z.ltb_spec k n); nia || done. }
  induction fuel as [| fuel IH]; intros k Hk Hfuel.
  - cbn [gridStrideLoop]. destruct (Hidx k Hk) as [-> ->].
    destruct (Z.ltb_spec k n); [nia |].
    by rewrite unit_positions_done.
  - cbn [gridStrideLoop]. destruct (Hidx k Hk) as [-> ->].
    destruct (Z.ltb_spec k n) as [Hlt | Hge].
    + rewrite HBG.
      assert (HkN : uadd k N = k + N).
      { unfold uadd. apply to_uint_id. unfold uint_mod in *. nia. }
      rewrite HkN, IH by nia.
      rewrite (unit_positions_step n N HN k Hlt). cbn [fmap list_fmap calls finished].
      rewrite to_int_id; [done |].
      unfold in_int, int_min, int_max in *. nia.
    + by rewrite unit_positions_done.
Qed.

(** X2. With [0 < gridDim <= INT_MAX] and [0 < blockDim <= INT_MAX], on a
    forward domain that starts at zero or above
    ([0 <= begin <= end <= INT_MAX], [0 < step <= INT_MAX]) whose product
    [step * (end - begin)] is within [int], and
    with [begin + step * (n + N)] below 2^32 for the [n] indices of the
    domain and the [N = gridDim * blockDim] units (no index computation
    wraps), the grid-stride dispatch issues one launch; followed for [n]
    rounds or more every unit has left its loop, unit [u] of [N] has
    called [f] on [begin + step * (u + k * N)] for [k = 0, 1, ...] while
    inside the domain, and all in all [f] was called exactly once on each
    index of the domain, whatever [N] is. *)
Theorem grid_stride_dispatch_forward this begin end_ step f h :
  0 < gridDim this <= int_max -> 0 < blockDim this <= int_max ->
  0 <= begin <= end_ -> end_ <= int_max -> 0 < step <= int_max ->
  in_int (step * (end_ - begin)) ->
  let n := ceil_div (end_ - begin) step in
  let N := gridDim this * blockDim this in
  begin + step * (n + N) < uint_mod ->
  exists l,
    apply this begin end_ step f h = (Ret tt, Host (stream_ h ++ [l]) (heap h))
    /\ forall fuel : nat,
        n <= Z.of_nat fuel ->
        exists tr,
          run_stream fuel [l] = Trace tr true
          /\ tr = (seqZ 0 N ≫= fun u =>
                     (fun p => begin + step * p) <$> unit_positions n N u)
          /\ tr ≡ₚ domain_indices begin end_ step.
Proof.
  intros HG HB Hbe He Hst Hp n N Hwrap.
  assert (Hs : in_int (end_ - begin)).
  { unfold in_int, int_min, int_max in *. lia. }
  destruct (checkInput_throws begin end_ step h Hs Hp) as [_ Hok].
  assert (Hc : checkInput begin end_ step h = (Ret tt, h)).
  { apply Hok. unfold invalid_range. nia. }
  assert (Hn : step * (n - 1) < end_ - begin <= step * n)
    by (apply ceil_div_spec; [lia | done]).
  assert (Hn0 : 0 <= n) by nia.
  assert (HN : 0 < N) by (unfold N; nia).
  rewrite (apply_valid _ _ _ _ _ _ Hc).
  destruct (Z.leb_spec (gridDim this) 0); [lia |].
  eexists. split; [reflexivity |]. intros fuel Hfuel.
  exists (seqZ 0 N ≫= fun u => (fun p => begin + step * p) <$> unit_positions n N u).
  split; [| split; [reflexivity |]].
  - rewrite run_stream_singleton. unfold run_launch, launch_threads.
    cbn [l_func l_gridDim l_blockDim l_begin l_end l_step].
    rewrite (trace_seq_all_finished _
               (fun th => (fun p => begin + step * p) <$>
                            unit_positions n N (blockIdx_x th * blockDim this
                                                + threadIdx_x th))).
    + f_equal.
      rewrite list_bind_bind.
      rewrite <- (bind_blocks
                    (fun u => (fun p => begin + step * p) <$> unit_positions n N u)
                    (gridDim this) (blockDim this)) by lia.
      apply Forall_bind_ext, Forall_seqZ. intros b Hb.
      rewrite list_bind_bind.
      apply Forall_bind_ext, Forall_seqZ. intros t Ht.
      rewrite bind_singleton. cbn [blockIdx_x threadIdx_x]. reflexivity.
    + apply Forall_bind, Forall_seqZ. intros b Hb.
      apply Forall_bind, Forall_seqZ. intros t Ht.
      apply Forall_singleton. unfold gridStrideLoopKernel, global_tid.
      cbn [blockIdx_x blockDim_x threadIdx_x].
      assert (Htid : 0 <= b * blockDim this + t < N) by (unfold N; nia).
      assert (HNu : N < uint_mod) by (unfold uint_mod in *; nia).
      rewrite (to_uint_id (blockDim this)) by (unfold uint_mod, int_max in *; lia).
      unfold umul at 1.
      rewrite (to_uint_id (b * blockDim this)) by (unfold uint_mod in *; nia).
      unfold uadd.
      rewrite (to_uint_id (b * blockDim this + t)) by lia.
      apply gridStrideLoop_forward; try done; try lia.
      * cbn [blockDim_x gridDim_x]. unfold umul.
        rewrite (to_uint_id (gridDim this)) by (unfold uint_mod, int_max in *; lia).
        rewrite to_uint_id by (unfold N in *; lia). unfold N. lia.
      * nia.
  - rewrite <- fmap_bind_list, domain_indices_forward by lia. fold n.
    by rewrite (unit_positions_partition n N HN Hn0).
Qed.

End StrideRuns.

Section KernelRuns.

(** ** C1 *)

(** C1 fails on the code. The domain [begin=10, end=0, step=-1] is valid
    and holds the indices 10, 9, ..., 1; the bounded dispatch with
    [blockDim=4] launches three blocks of [parallelForKernel], and no
    thread calls [f]: the kernel keeps an index only if [i < end], also
    when [step] is negative. *)
Theorem bounded_dispatch_backward_calls_nothing :
  let r := apply (parallel_for_auto 4 0) 10 0 (-1) tt host0 in
  valid_domain 10 0 (-1)
  /\ domain_indices 10 0 (-1) = [10; 9; 8; 7; 6; 5; 4; 3; 2; 1]
  /\ r.1 = Ret tt
  /\ stream_ r.2 = [Launch parallelForKernel_entry 3 4 0 tt 10 0 (-1)]
  /\ forall fuel, run_stream fuel (stream_ r.2) = Trace [] true.
Proof.
  intros r. split_and!.
  - unfold valid_domain. lia.
  - vm_compute. reflexivity.
  - vm_compute. reflexivity.
  - vm_compute. reflexivity.
  - intros fuel. vm_compute. reflexivity.
Qed.

(** The same kernel misses the negative indices of a forward domain that
    crosses zero: [begin + step * tid] is computed and compared as
    [unsigned int]. *)
Lemma bounded_dispatch_across_zero :
  let r := apply (parallel_for_auto 4 0) (-5) 5 1 tt host0 in
  domain_indices (-5) 5 1 = [-5; -4; -3; -2; -1; 0; 1; 2; 3; 4]
  /\ run_stream 0 (stream_ r.2) = Trace [0; 1; 2; 3; 4] true.
Proof. split; vm_compute; reflexivity. Qed.

(** With more threads than indices a backward domain below zero even gets
    [f] called outside the domain. *)
Lemma bounded_dispatch_backward_outside :
  let r := apply (parallel_for_auto 8 0) (-1) (-5) (-1) tt host0 in
  domain_indices (-1) (-5) (-1) = [-1; -2; -3; -4]
  /\ run_stream 0 (stream_ r.2) = Trace [-6; -7; -8] true.
Proof. split; vm_compute; reflexivity. Qed.

(** A forward domain from zero on is covered. *)
Example bounded_dispatch_0_10 :
  run_stream 0 (stream_ (apply (parallel_for_auto 4 0) 0 10 1 tt host0).2)
  = Trace (domain_indices 0 10 1) true.
Proof. vm_compute. reflexivity. Qed.

(** ** C2 *)

(** C2 fails on the code. On the valid domain [begin=10, end=0, step=-1]
    the grid-stride dispatch with two blocks of two threads launches
    [gridStrideLoopKernel], and every thread leaves its loop at once, as
    the loop also runs only while [i < end]: [f] is called on none of 10,
    9, ..., 1. *)
Theorem grid_stride_backward_calls_nothing :
  let r := apply (parallel_for_stride 2 2 0) 10 0 (-1) tt host0 in
  valid_domain 10 0 (-1)
  /\ domain_indices 10 0 (-1) = [10; 9; 8; 7; 6; 5; 4; 3; 2; 1]
  /\ r.1 = Ret tt
  /\ stream_ r.2 = [Launch gridStrideLoopKernel_entry 2 2 0 tt 10 0 (-1)]
  /\ forall fuel, run_stream fuel (stream_ r.2) = Trace [] true.
Proof.
  intros r. split_and!.
  - unfold valid_domain. lia.
  - vm_compute. reflexivity.
  - vm_compute. reflexivity.
  - vm_compute. reflexivity.
  - intros fuel. destruct fuel; vm_compute; reflexivity.
Qed.

(** On an empty backward domain the grid-stride kernel even calls [f]:
    unit 1 starts at [begin - 1], which is below [end]. *)
Lemma grid_stride_empty_backward_calls :
  let r := apply (parallel_for_stride 1 2 0) 5 5 (-1) tt host0 in
  domain_indices 5 5 (-1) = []
  /\ run_stream 4 (stream_ r.2) = Trace [4; 2; 0] true.
Proof. split; vm_compute; reflexivity. Qed.

(** A forward domain from zero on is covered, each thread striding by the
    number of threads. *)
Example grid_stride_0_10 :
  run_stream 3 (stream_ (apply (parallel_for_stride 2 2 0) 0 10 1 tt host0).2)
  = Trace [0; 4; 8; 1; 5; 9; 2; 6; 3; 7] true.
Proof. vm_compute. reflexivity. Qed.

End KernelRuns.

(** ** More on the launch scheduler *)
Section MoreDispatch.
Context {F : Type}.
Implicit Types (this : parallel_for) (f : F) (h : host F).

(** [apply] either throws out of [checkInput] or divides by zero, with the
    state untouched, or appends what it launches to the stream. *)
Lemma apply_cases this begin end_ step f h :
  (exists e, apply this begin end_ step f h = (Throw e, h))
  \/ apply this begin end_ step f h = (Undefined, h)
  \/ exists G,
       apply this begin end_ step f h =
         (Ret tt, Host (stream_ h ++ issued_by this G begin end_ step f) (heap h)).
Proof.
  destruct (checkInput_cases begin end_ step h) as [Hc | [e Hc]].
  - right. rewrite (apply_valid _ _ _ _ _ _ Hc). unfold issued_by, launch_kernel, modify.
    destruct (gridDim this <=? 0); [destruct (negb (begin =? end_)) |].
    + destruct (calculateGridDim this begin end_ step) as [G |]; [| by left].
      right. by exists G.
    + right. exists 0. rewrite app_nil_r. by destruct h.
    + right. by exists 0.
  - left. exists e. by apply apply_invalid.
Qed.

Lemma parallelForKernel_below (th : thread) begin end_ step v :
  0 <= end_ <= int_max ->
  v ∈ parallelForKernel th begin end_ step -> 0 <= v < end_.
Proof.
  intros He. unfold parallelForKernel, in_range.
  rewrite (to_uint_id end_) by (unfold uint_mod, int_max in *; lia).
  pose proof (to_uint_range (to_uint begin + umul (to_uint step) (global_tid th))) as Hi.
  unfold index_at, uadd.
  set (i := to_uint (to_uint begin + umul (to_uint step) (global_tid th))) in *.
  destruct (Z.ltb_spec i end_) as [Hlt | Hge]; [| by intros ?%elem_of_nil].
  intros ->%list_elem_of_singleton.
  rewrite to_int_id; [lia |]. unfold in_int, int_min, int_max in *. lia.
Qed.

Lemma gridStrideLoop_below (th : thread) begin end_ step :
  0 <= end_ <= int_max ->
  forall (fuel : nat) (k : Z),
    Forall (fun v => 0 <= v < end_) (calls (gridStrideLoop fuel th begin end_ step k)).
Proof.
  intros He.
  assert (Hstep : forall k, in_range (index_at begin step k) end_ = true ->
                            0 <= to_int (index_at begin step k) < end_).
  { intros k. unfold in_range, index_at, uadd.
    rewrite (to_uint_id end_) by (unfold uint_mod, int_max in *; lia).
    pose proof (to_uint_range (to_uint begin + umul (to_uint step) k)) as Hi.
    set (i := to_uint (to_uint begin + umul (to_uint step) k)) in *.
    intros Hlt%Z.ltb_lt.
    rewrite to_int_id; [lia |]. unfold in_int, int_min, int_max in *. lia. }
  induction fuel as [| fuel IH]; intros k; cbn [gridStrideLoop];
    destruct (in_range (index_at begin step k) end_) eqn:Hin;
    cbn [calls]; try constructor; [by apply Hstep | apply IH].
Qed.

(** Every index a launch calls [f] on lies in [[0, end)] when [end] is not
    negative. *)
Lemma run_launch_below (fuel : nat) (l : launch F) :
  0 <= l_end l <= int_max ->
  Forall (fun v => 0 <= v < l_end l) (calls (run_launch fuel l)).
Proof.
  intros He. unfold run_launch. destruct (l_func l); cbn [calls trace_seq].
  - apply Forall_forall. intros v (th & Hv & _)%list_elem_of_bind.
    by eapply parallelForKernel_below.
  - apply Forall_bind, Forall_fmap, Forall_forall. intros th _.
    by apply gridStrideLoop_below.
Qed.

Lemma run_stream_nil (fuel : nat) : run_stream (F := F) fuel [] = Trace [] true.
Proof. reflexivity. Qed.

Lemma issued_by_cases this G begin end_ step f :
  issued_by this G begin end_ step f = []
  \/ exists l, issued_by this G begin end_ step f = [l]
               /\ l_end l = end_ /\ l_begin l = begin /\ l_step l = step /\ l_f l = f
               /\ l_blockDim l = blockDim this /\ l_sharedMem l = sharedMemSize this.
Proof.
  unfold issued_by.
  destruct (gridDim this <=? 0); [destruct (negb (begin =? end_)) |];
    [right | by left | right]; eexists; (split; [reflexivity |]); by repeat split.
Qed.

Lemma issued_below this G begin end_ step f (fuel : nat) :
  0 <= end_ <= int_max ->
  Forall (fun v => 0 <= v < end_)
         (calls (run_stream fuel (issued_by this G begin end_ step f))).
Proof.
  intros He.
  destruct (issued_by_cases this G begin end_ step f) as [-> | (l & -> & <- & _)].
  - rewrite run_stream_nil. constructor.
  - rewrite run_stream_singleton. by apply run_launch_below.
Qed.

(** The bounded strategy runs no loop: what it launches always runs to its
    end. *)
Lemma issued_bounded_runs this G begin end_ step f (fuel : nat) :
  gridDim this <= 0 ->
  finished (run_stream fuel (issued_by this G begin end_ step f)) = true.
Proof.
  intros Hg. unfold issued_by.
  destruct (Z.leb_spec (gridDim this) 0); [| lia].
  destruct (negb (begin =? end_)); [| by rewrite run_stream_nil].
  rewrite run_stream_singleton. reflexivity.
Qed.

(** X1. With [gridDim <= 0] and [0 < blockDim <= INT_MAX], on a forward
    domain that starts at zero or above ([0 <= begin <= end <= INT_MAX],
    [0 < step <= INT_MAX]) whose product [step * (end - begin)] is within
    [int], and
    with [begin + step * (G * blockDim - 1)] below 2^32 for the
    [G = ceil(ceil((end - begin) / step) / blockDim)] blocks (no thread's
    index computation wraps), the bounded dispatch runs to its end and
    calls [f] exactly once on each index of the domain and on nothing
    else. *)
Theorem bounded_dispatch_forward this begin end_ step f h :
  gridDim this <= 0 -> 0 < blockDim this <= int_max ->
  0 <= begin <= end_ -> end_ <= int_max -> 0 < step <= int_max ->
  in_int (step * (end_ - begin)) ->
  let G := ceil_div (ceil_div (end_ - begin) step) (blockDim this) in
  begin + step * (G * blockDim this - 1) < uint_mod ->
  exists issued,
    apply this begin end_ step f h = (Ret tt, Host (stream_ h ++ issued) (heap h))
    /\ forall fuel,
        run_stream fuel issued = Trace (domain_indices begin end_ step) true.
Proof.
  intros Hg HB Hbe He Hst Hp G Hwrap.
  assert (Hs : in_int (end_ - begin)).
  { unfold in_int, int_min, int_max in *. lia. }
  destruct (checkInput_throws begin end_ step h Hs Hp) as [_ Hok].
  assert (Hc : checkInput begin end_ step h = (Ret tt, h)).
  { apply Hok. unfold invalid_range. nia. }
  rewrite (apply_valid _ _ _ _ _ _ Hc).
  destruct (Z.leb_spec (gridDim this) 0); [| lia].
  rewrite domain_indices_forward by lia.
  destruct (Z.eqb_spec begin end_) as [-> | Hne]; cbn [negb].
  - exists []. rewrite app_nil_r. destruct h. split; [done |].
    intros fuel. rewrite Z.sub_diag. reflexivity.
  - destruct (calculateGridDim_forward this begin end_ step) as (-> & _);
      [lia .. | done |].
    eexists [_]. split; [reflexivity |]. intros fuel.
    rewrite run_stream_singleton. by apply bounded_launch_forward.
Qed.

(** X3. Whatever the domain, the step and the configuration, when
    [0 <= end <= INT_MAX] every index on which a dispatch of [apply] calls
    [f] lies in [[0, end)], however long its threads are followed and
    whether they ever leave their loops or not; under the bounded strategy
    the dispatch always runs to its end. *)
Theorem apply_calls_below_end this begin end_ step f h :
  0 <= end_ <= int_max ->
  exists issued,
    (apply this begin end_ step f h).2 = Host (stream_ h ++ issued) (heap h)
    /\ (gridDim this <= 0 ->
        forall fuel : nat, finished (run_stream fuel issued) = true)
    /\ forall fuel : nat,
        Forall (fun v => 0 <= v < end_) (calls (run_stream fuel issued)).
Proof.
  intros He.
  destruct (apply_cases this begin end_ step f h) as [[e ->] | [-> | [G ->]]].
  - exists []. rewrite app_nil_r. split; [by destruct h |].
    split; [intros _ fuel; by rewrite run_stream_nil |].
    intros fuel. rewrite run_stream_nil. constructor.
  - exists []. rewrite app_nil_r. split; [by destruct h |].
    split; [intros _ fuel; by rewrite run_stream_nil |].
    intros fuel. rewrite run_stream_nil. constructor.
  - exists (issued_by this G begin end_ step f). split; [done |].
    split; [intros Hg fuel; by apply issued_bounded_runs |].
    intros fuel. by apply issued_below.
Qed.

(** X4. On a backward domain ([step < 0]) with [0 <= end <= INT_MAX], no
    dispatch of [apply], bounded or grid-stride, ever calls [f] on an index
    of the domain, however long its threads are followed and whether they
    ever leave their loops or not. *)
Theorem backward_domain_never_called this begin end_ step f h :
  step < 0 -> 0 <= end_ <= int_max ->
  exists issued,
    (apply this begin end_ step f h).2 = Host (stream_ h ++ issued) (heap h)
    /\ (gridDim this <= 0 ->
        forall fuel : nat, finished (run_stream fuel issued) = true)
    /\ forall (fuel : nat) (v : Z),
        v ∈ domain_indices begin end_ step -> v ∉ calls (run_stream fuel issued).
Proof.
  intros Hst He.
  assert (Hdom : forall v, v ∈ domain_indices begin end_ step -> end_ < v).
  { intros v. unfold domain_indices, before_end.
    destruct (Z.ltb_spec 0 step); [lia |].
    intros [Hv _]%list_elem_of_filter. by apply Z.ltb_lt. }
  destruct (apply_cases this begin end_ step f h) as [[e ->] | [-> | [G ->]]].
  - exists []. rewrite app_nil_r. split; [by destruct h |].
    split; [intros _ fuel; by rewrite run_stream_nil |].
    intros fuel v _. rewrite run_stream_nil. apply not_elem_of_nil.
  - exists []. rewrite app_nil_r. split; [by destruct h |].
    split; [intros _ fuel; by rewrite run_stream_nil |].
    intros fuel v _. rewrite run_stream_nil. apply not_elem_of_nil.
  - exists (issued_by this G begin end_ step f). split; [done |].
    split; [intros Hg fuel; by apply issued_bounded_runs |].
    intros fuel v Hv Hin.
    pose proof (issued_below this G begin end_ step f fuel He) as Hall.
    rewrite Forall_forall in Hall. specialize (Hall v Hin). apply Hdom in Hv. lia.
Qed.

(** X5. For a valid domain whose [int] computations do not overflow and a
    positive [blockDim], the grid that [calculateGridDim] sizes has enough
    threads for every index and less than one block to spare; it is empty
    exactly when the domain is, so a bounded launch always has at least one
    block. *)
Theorem calculateGridDim_covers this begin end_ step :
  in_int (end_ - begin) -> in_int (step * (end_ - begin)) ->
  valid_domain begin end_ step -> 0 < blockDim this ->
  let n := ceil_div (end_ - begin) step in
  exists G,
    calculateGridDim this begin end_ step = Some G
    /\ (begin = end_ -> n = 0 /\ G = 0)
    /\ (begin <> end_ -> 1 <= n /\ 1 <= G)
    /\ blockDim this * (G - 1) < n <= blockDim this * G.
Proof.
  intros Hs Hp Hv HB n.
  assert (Hni : in_int n).
  { destruct Hv as [Hst Hv]. revert Hs Hp. unfold n, ceil_div, in_int, int_min, int_max.
    Z.to_euclidean_division_equations. nia. }
  exists (ceil_div n (blockDim this)).
  split; [by apply calculateGridDim_value |].
  set (G := ceil_div n (blockDim this)).
  assert (Hcover : blockDim this * (G - 1) < n <= blockDim this * G)
    by (by apply ceil_div_spec).
  destruct Hv as [Hst Hv].
  assert (Hn : (begin = end_ -> n = 0) /\ (begin <> end_ -> 1 <= n)).
  { unfold n, ceil_div. split; intros Hbe.
    - subst. rewrite Z.sub_diag. reflexivity.
    - Z.to_euclidean_division_equations. nia. }
  destruct Hn as [Hn0 Hn1]. split; [| split; [| done]].
  - intros Hbe. specialize (Hn0 Hbe). split; [done | nia].
  - intros Hbe. specialize (Hn1 Hbe). split; [done | nia].
Qed.

(** X6. Whatever the arguments, [apply] leaves the heap and the launches
    already on the stream alone and appends at most one launch; it appends
    none when it throws; a launch it appends carries [f], [begin], [end]
    and [step] as passed and the configured [blockDim] and
    [sharedMemSize]. *)
Theorem apply_issues_at_most_one this begin end_ step f h :
  exists issued,
    (apply this begin end_ step f h).2 = Host (stream_ h ++ issued) (heap h)
    /\ (length issued <= 1)%nat
    /\ (throws (apply this begin end_ step f h).1 -> issued = [])
    /\ Forall (fun l => l_f l = f /\ l_begin l = begin /\ l_end l = end_
                        /\ l_step l = step /\ l_blockDim l = blockDim this
                        /\ l_sharedMem l = sharedMemSize this) issued.
Proof.
  destruct (apply_cases this begin end_ step f h) as [[e ->] | [-> | [G ->]]].
  - exists []. rewrite app_nil_r. split; [by destruct h |].
    split_and!; [cbn; lia | done | constructor].
  - exists []. rewrite app_nil_r. split; [by destruct h |].
    split_and!; [cbn; lia | done | constructor].
  - exists (issued_by this G begin end_ step f). split; [done |].
    destruct (issued_by_cases this G begin end_ step f)
      as [-> | (l & -> & ? & ? & ? & ? & ? & ?)].
    + split_and!; [cbn; lia | done | constructor].
    + split_and!; [cbn; lia | intros [] | by repeat constructor].
Qed.

(** What a successful [asNodeParms] has done. *)
Lemma asNodeParms_run this begin end_ step f h p h' :
  asNodeParms this begin end_ step f h = (Ret p, h') ->
  p = fresh (dom (heap h))
  /\ exists G,
      dispatch_gridDim this begin end_ step = Some G
      /\ h' = Host (stream_ h)
                   (<[p := built_descriptor this G begin end_ step f p]> (heap h)).
Proof.
  destruct (checkInput_cases begin end_ step h) as [Hc | [e Hc]].
  - rewrite (asNodeParms_valid _ _ _ _ _ _ Hc).
    destruct (dispatch_gridDim this begin end_ step) as [G |]; [| done].
    intros [= <- <-]. eauto.
  - by rewrite (asNodeParms_invalid _ _ _ _ _ _ _ Hc).
Qed.

(** X7. [asNodeParms] never touches the stream or a descriptor that is
    already on the heap; two descriptors built one after the other lie at
    different addresses, each holds the payload of its own call, and no
    argument pointer of the one points into the other. *)
Theorem asNodeParms_descriptors_apart
    this1 this2 (b1 e1 s1 b2 e2 s2 : Z) (f1 f2 : F) h (p1 p2 : positive) h1 h2 :
  asNodeParms this1 b1 e1 s1 f1 h = (Ret p1, h1) ->
  asNodeParms this2 b2 e2 s2 f2 h1 = (Ret p2, h2) ->
  stream_ h2 = stream_ h
  /\ (forall q, q <> p1 -> q <> p2 -> heap h2 !! q = heap h !! q)
  /\ p1 <> p2
  /\ heap h2 !! p1 = heap h1 !! p1
  /\ exists d1 d2,
      heap h2 !! p1 = Some d1 /\ heap h2 !! p2 = Some d2
      /\ kp_data d1 = KernelData b1 s1 e1 f1
      /\ kp_data d2 = KernelData b2 s2 e2 f2
      /\ forall x, x ∈ kp_kernelParams d1 -> x ∉ kp_kernelParams d2.
Proof.
  intros (Hp1 & G1 & _ & ->)%asNodeParms_run (Hp2 & G2 & _ & ->)%asNodeParms_run.
  cbn [stream_ heap] in *.
  assert (Hne : p1 <> p2).
  { intros <-. pose proof (is_fresh (dom (<[p1 := built_descriptor this1 G1 b1 e1 s1 f1 p1]>
                                            (heap h)))) as Hf.
    rewrite <- Hp2 in Hf. apply Hf. rewrite dom_insert_L. set_solver. }
  split_and!.
  - done.
  - intros q Hq1 Hq2. by rewrite !lookup_insert_ne.
  - done.
  - by rewrite lookup_insert_ne.
  - eexists _, _. split_and!.
    + rewrite lookup_insert_ne by done. apply lookup_insert_eq.
    + apply lookup_insert_eq.
    + reflexivity.
    + reflexivity.
    + intros x Hx Hx'. cbn [built_descriptor kp_kernelParams] in Hx, Hx'.
      assert (H1 : p_obj x = p1).
      { repeat (apply elem_of_cons in Hx as [-> | Hx]; [done |]).
        by apply elem_of_nil in Hx. }
      assert (H2 : p_obj x = p2).
      { repeat (apply elem_of_cons in Hx' as [-> | Hx']; [done |]).
        by apply elem_of_nil in Hx'. }
      congruence.
Qed.

Lemma seqZ_from (begin count : Z) :
  (fun k => begin + 1 * k) <$> seqZ 0 count = seqZ begin count.
Proof.
  assert (seqZ begin count = Z.add begin <$> seqZ 0 count) as ->
    by (rewrite fmap_add_seqZ; f_equal; lia).
  apply list_fmap_ext. intros _ k _. lia.
Qed.

Lemma ceil_div_1 (a : Z) : ceil_div a 1 = a.
Proof. unfold ceil_div. rewrite Z.div_1_r. lia. Qed.

(** On [[begin, begin + count)] by steps of 1 [calculateGridDim] divides
    by [blockDim] only. *)
Lemma calculateGridDim_count this begin count :
  0 <= count -> in_int count -> blockDim this <> 0 ->
  exists G, calculateGridDim this begin (begin + count) 1 = Some G.
Proof.
  intros Hc Hci HB. unfold calculateGridDim, sub.
  replace (begin + count - begin) with count by lia.
  rewrite (to_int_id count Hci).
  rewrite div_defined, rem_defined by lia.
  unfold mbind, option_bind. rewrite Z.quot_1_r, Z.rem_1_r.
  rewrite (to_int_id count Hci). cbn [Z.eqb negb].
  assert (add count 0 = count) as ->
    by (unfold add; by rewrite Z.add_0_r, (to_int_id count Hci)).
  rewrite div_defined, rem_defined by (unfold int_min; lia).
  eauto.
Qed.

(** X8. The range overloads, under the bounded strategy ([gridDim <= 0])
    with [0 < blockDim <= INT_MAX]: for [0 <= begin], [0 <= count] and
    [begin + count <= INT_MAX], [apply(begin, count, f)] runs to its end and
    calls [f] exactly once on each of [begin, ..., begin + count - 1], in
    no case on anything else; [apply(count, f)] is [apply(0, count, f)];
    a negative count is rejected as a step that points away from [end],
    with the state untouched. *)
Theorem apply_count_calls this begin count f h :
  gridDim this <= 0 -> 0 < blockDim this <= int_max ->
  0 <= begin -> 0 <= count -> begin + count <= int_max ->
  (exists issued,
      apply_count_from this begin count f h =
        (Ret tt, Host (stream_ h ++ issued) (heap h))
      /\ forall fuel, run_stream fuel issued = Trace (seqZ begin count) true)
  /\ apply_count this count f h = apply_count_from this 0 count f h
  /\ forall c, in_int c -> c < 0 ->
       apply_count this c f h =
         (Throw (LogicError "step direction is not consistent with [begin, end)!"), h).
Proof.
  intros Hg HB Hb Hc Hsum.
  assert (Hadd : add begin count = begin + count).
  { apply to_int_id. unfold in_int, int_min, int_max in *. lia. }
  split_and!.
  - unfold apply_count_from. rewrite Hadd.
    assert (Hs : in_int (begin + count - begin))
      by (unfold in_int, int_min, int_max in *; lia).
    assert (Hp : in_int (1 * (begin + count - begin)))
      by (unfold in_int, int_min, int_max in *; lia).
    destruct (calculateGridDim_forward this begin (begin + count) 1)
      as (HG & Hn & _ & Hblk); [lia .. | done |].
    rewrite ceil_div_1 in *.
    destruct (checkInput_throws begin (begin + count) 1 h Hs Hp) as [_ Hok].
    assert (Hcheck : checkInput begin (begin + count) 1 h = (Ret tt, h)).
    { apply Hok. unfold invalid_range. lia. }
    rewrite (apply_valid _ _ _ _ _ _ Hcheck).
    destruct (Z.leb_spec (gridDim this) 0); [| lia].
    destruct (Z.eqb_spec begin (begin + count)) as [E | Hne]; cbn [negb].
    + exists []. rewrite app_nil_r. destruct h. split; [done |].
      intros fuel. replace count with 0 by lia. reflexivity.
    + rewrite HG. eexists [_]. split; [reflexivity |]. intros fuel.
      rewrite run_stream_singleton.
      pose proof (bounded_launch_forward (blockDim this) begin (begin + count) 1
                    f (sharedMemSize this) fuel) as Hrun.
      rewrite ceil_div_1 in Hrun. rewrite Hrun; try done; try lia.
      * replace (begin + count - begin) with count by lia.
        by rewrite seqZ_from.
      * unfold int_max, uint_mod in *. nia.
  - unfold apply_count, apply_count_from. f_equal.
    unfold add. rewrite Z.add_0_l. symmetry. apply to_int_id.
    unfold in_int, int_min, int_max in *. lia.
  - intros c Hci Hneg. unfold apply_count. apply apply_invalid.
    unfold checkInput, mul, sub. cbn [Z.eqb].
    rewrite Z.sub_0_r, (to_int_id c Hci), Z.mul_1_l, (to_int_id c Hci).
    by destruct (Z.ltb_spec c 0); [| lia].
Qed.

(** X9. The range overloads of [asNodeParms]: for [count >= 0] with
    [begin], [count] and [begin + count] in [int], and a [blockDim] that
    is not zero when the strategy is the bounded one ([gridDim <= 0],
    where a zero [blockDim] is divided by), [asNodeParms(begin, count, f)]
    returns and builds, at a fresh address, a descriptor whose payload is
    [begin], step 1, [end = begin + count] and [f]; under the bounded
    strategy with a positive [blockDim] it records
    [ceil(count / blockDim)] blocks of the bounded kernel, under the
    grid-stride strategy the configured grid; [asNodeParms(count, f)] is
    [asNodeParms(0, count, f)]. *)
Theorem asNodeParms_count_payload this begin count f h :
  0 <= count -> in_int begin -> in_int count -> in_int (begin + count) ->
  (gridDim this <= 0 -> blockDim this <> 0) ->
  (exists p d,
      asNodeParms_count_from this begin count f h =
        (Ret p, Host (stream_ h) (<[p := d]> (heap h)))
      /\ heap h !! p = None
      /\ kp_data d = KernelData begin 1 (begin + count) f
      /\ kp_blockDim d = blockDim this
      /\ kp_sharedMemBytes d = sharedMemSize this
      /\ (gridDim this <= 0 -> 0 < blockDim this ->
          kp_func d = Some parallelForKernel_entry
          /\ kp_gridDim d = ceil_div count (blockDim this))
      /\ (0 < gridDim this ->
          kp_func d = Some gridStrideLoopKernel_entry
          /\ kp_gridDim d = gridDim this))
  /\ asNodeParms_count this count f h = asNodeParms_count_from this 0 count f h.
Proof.
  intros Hc Hb Hci Hsum HB0.
  assert (Hadd : add begin count = begin + count) by (by apply to_int_id).
  split.
  - unfold asNodeParms_count_from. rewrite Hadd.
    assert (Hs : in_int (begin + count - begin))
      by (by replace (begin + count - begin) with count by lia).
    assert (Hp : in_int (1 * (begin + count - begin)))
      by (by rewrite Z.mul_1_l).
    destruct (checkInput_throws begin (begin + count) 1 h Hs Hp) as [_ Hok].
    assert (Hcheck : checkInput begin (begin + count) 1 h = (Ret tt, h)).
    { apply Hok. unfold invalid_range. lia. }
    rewrite (asNodeParms_valid _ _ _ _ _ _ Hcheck).
    assert (HG : exists G, dispatch_gridDim this begin (begin + count) 1 = Some G
                           /\ (gridDim this <= 0 -> 0 < blockDim this ->
                               G = ceil_div count (blockDim this))
                           /\ (0 < gridDim this -> G = gridDim this)).
    { unfold dispatch_gridDim.
      destruct (Z.leb_spec (gridDim this) 0) as [Hg | Hg];
        [| exists (gridDim this); split; [done |]; split; [lia | done]].
      destruct (calculateGridDim_count this begin count) as [G HG']; [done .. | auto |].
      exists G. split; [done |]. split; [| lia]. intros _ HB.
      destruct (calculateGridDim_forward this begin (begin + count) 1)
        as (HG'' & _); [lia .. | done |].
      rewrite ceil_div_1 in HG''.
      replace (begin + count - begin) with count in HG'' by lia. congruence. }
    destruct HG as (G & -> & HGb & HGs).
    eexists _, _. split; [reflexivity |].
    split; [apply fresh_heap_loc |].
    unfold built_descriptor.
    cbn [kp_data kp_func kp_gridDim kp_blockDim kp_sharedMemBytes].
    split_and!; try reflexivity.
    + intros Hg HB. destruct (Z.leb_spec (gridDim this) 0); [| lia].
      split; [done | by apply HGb].
    + intros Hg. destruct (Z.leb_spec (gridDim this) 0); [lia |].
      split; [done | by apply HGs].
  - unfold asNodeParms_count, asNodeParms_count_from. f_equal.
    unfold add. rewrite Z.add_0_l. symmetry. by apply to_int_id.
Qed.

End MoreDispatch.

Section MoreDispatchExamples.

Local Ltac side :=
  first [ vm_compute; reflexivity
        | unfold valid_domain, in_int, int_min, int_max, uint_mod; simpl; lia ].

Lemma bounded_dispatch_forward_witness :
  exists issued,
    apply (parallel_for_auto 4 0) 3 20 5 tt host0 = (Ret tt, Host ([] ++ issued) ∅)
    /\ forall fuel, run_stream fuel issued = Trace (domain_indices 3 20 5) true.
Proof.
  apply (bounded_dispatch_forward (parallel_for_auto 4 0) 3 20 5 tt host0); side.
Defined.

Lemma grid_stride_dispatch_forward_witness :
  exists l,
    apply (parallel_for_stride 2 3 0) 3 20 5 tt host0 = (Ret tt, Host ([] ++ [l]) ∅)
    /\ exists tr,
        run_stream 4 [l] = Trace tr true /\ tr ≡ₚ domain_indices 3 20 5.
Proof.
  destruct (grid_stride_dispatch_forward (parallel_for_stride 2 3 0) 3 20 5 tt host0)
    as (l & Hl & Hrun); [side .. |].
  exists l. split; [exact Hl |].
  destruct (Hrun 4%nat) as (tr & Ht & _ & Hperm); [vm_compute; discriminate |].
  exists tr. exact (conj Ht Hperm).
Defined.

Lemma apply_calls_below_end_witness :
  exists issued,
    (apply (parallel_for_stride 2 2 0) 0 10 1 tt host0).2 = Host ([] ++ issued) ∅
    /\ forall fuel : nat,
        Forall (fun v => 0 <= v < 10) (calls (run_stream fuel issued)).
Proof.
  destruct (apply_calls_below_end (parallel_for_stride 2 2 0) 0 10 1 tt host0)
    as (issued & Hi & _ & Hb); [side |].
  exists issued. exact (conj Hi Hb).
Defined.

Lemma backward_domain_never_called_witness :
  exists issued,
    (apply (parallel_for_stride 1 8 0) 10 5 (-1) tt host0).2 = Host ([] ++ issued) ∅
    /\ forall (fuel : nat) (v : Z),
        v ∈ domain_indices 10 5 (-1) -> v ∉ calls (run_stream fuel issued).
Proof.
  destruct (backward_domain_never_called (parallel_for_stride 1 8 0) 10 5 (-1) tt host0)
    as (issued & Hi & _ & Hb); [side .. |].
  exists issued. exact (conj Hi Hb).
Defined.

Lemma calculateGridDim_covers_witness :
  exists G,
    calculateGridDim (parallel_for_auto 4 0) 20 3 (-5) = Some G
    /\ 1 <= G
    /\ 4 * (G - 1) < ceil_div (3 - 20) (-5) <= 4 * G.
Proof.
  destruct (calculateGridDim_covers (parallel_for_auto 4 0) 20 3 (-5))
    as (G & HG & _ & Hne & Hc); [side .. |].
  exists G. split; [exact HG |]. split; [apply Hne; lia | exact Hc].
Defined.

Lemma asNodeParms_descriptors_apart_witness :
  let r1 := asNodeParms (parallel_for_auto 4 0) 0 10 1 tt host0 in
  let r2 := asNodeParms (parallel_for_stride 2 4 0) 3 20 5 tt r1.2 in
  (1 : positive) <> 2%positive
  /\ heap r2.2 !! 1%positive = heap r1.2 !! 1%positive.
Proof.
  intros r1 r2.
  destruct (asNodeParms_descriptors_apart
              (parallel_for_auto 4 0) (parallel_for_stride 2 4 0)
              0 10 1 3 20 5 tt tt host0 1%positive 2%positive r1.2 r2.2)
    as (_ & _ & Hne & Hkeep & _); [side .. |].
  exact (conj Hne Hkeep).
Defined.

Lemma apply_count_calls_witness :
  (exists issued,
      apply_count_from (parallel_for_auto 4 0) 3 6 tt host0 =
        (Ret tt, Host ([] ++ issued) ∅)
      /\ forall fuel, run_stream fuel issued = Trace (seqZ 3 6) true)
  /\ apply_count (parallel_for_auto 4 0) (-2) tt host0 =
       (Throw (LogicError "step direction is not consistent with [begin, end)!"), host0).
Proof.
  destruct (apply_count_calls (parallel_for_auto 4 0) 3 6 tt host0)
    as (Hrun & _ & Hneg); [side .. |].
  split; [exact Hrun | apply Hneg; side].
Defined.

Lemma asNodeParms_count_payload_witness :
  exists p d,
    asNodeParms_count_from (parallel_for_auto 4 0) 3 6 tt host0 =
      (Ret p, Host [] (<[p := d]> ∅))
    /\ kp_data d = KernelData 3 1 (3 + 6) tt
    /\ kp_gridDim d = ceil_div 6 4.
Proof.
  destruct (asNodeParms_count_payload (parallel_for_auto 4 0) 3 6 tt host0)
    as ((p & d & Hrun & _ & Hdata & _ & _ & Hb & _) & _); [side .. |].
  exists p, d. split; [exact Hrun |]. split; [exact Hdata |].
  apply Hb; side.
Defined.

End MoreDispatchExamples.

(** ** A grid-stride loop that never ends *)
Section EndlessStride.

Lemma umul_stride_period (s k N : Z) :
  umul s N = 0 -> umul s (uadd k N) = umul s k.
Proof.
  unfold umul, uadd, to_uint, uint_mod. intros HN.
  rewrite Z.mul_mod_idemp_r by lia.
  rewrite Z.mul_add_distr_l, Z.add_mod by lia.
  rewrite HN, Z.add_0_r. by rewrite Z.mod_mod by lia.
Qed.

(** X18. The grid-stride loop need not end.  When the stride in indices,
    [step] times the number of units, is a multiple of 2^32, the unit's
    index is the same after every round; a unit whose first index passes
    the test [i < end] then calls [f] on that index for ever: however
    many rounds it is followed for, it has called [f] on that index in
    each of them and has not left its loop. *)
Theorem grid_stride_unit_never_exits (th : thread) (begin end_ step k : Z) :
  umul (to_uint step) (umul (blockDim_x th) (gridDim_x th)) = 0 ->
  in_range (index_at begin step k) end_ = true ->
  forall fuel : nat,
    gridStrideLoop fuel th begin end_ step k
    = Trace (replicate fuel (to_int (index_at begin step k))) false.
Proof.
  intros Hperiod Hin fuel.
  assert (Hsame : forall k', index_at begin step
                               (uadd k' (umul (blockDim_x th) (gridDim_x th)))
                             = index_at begin step k').
  { intros k'. unfold index_at. by rewrite umul_stride_period. }
  revert k Hin.
  induction fuel as [| fuel IH]; intros k Hin; cbn [gridStrideLoop]; rewrite Hin;
    [done |].
  rewrite IH by (by rewrite Hsame). by rewrite Hsame.
Qed.

Lemma grid_stride_unit_never_exits_witness :
  gridStrideLoop 1000 (Thread (2 ^ 21) 1024 0 0) 0 10 2 0
  = Trace (replicate 1000 (to_int (index_at 0 2 0))) false.
Proof.
  apply (grid_stride_unit_never_exits (Thread (2 ^ 21) 1024 0 0) 0 10 2 0);
    vm_compute; reflexivity.
Defined.

End EndlessStride.

Import DeviceScalar.

Section ScalarFacts.
Context {T : Type}.
Implicit Types (w : world T) (this other : positive) (v : T).

Lemma fresh_cell w : mem w !! fresh (dom (mem w)) = None.
Proof. apply not_elem_of_dom, is_fresh. Qed.

Lemma view_live w this l :
  vars w !! this = Some l -> view this w = (Ret (MkVarView l), w).
Proof. intros H. unfold view, bind, get_m_data, ret. by rewrite H. Qed.

Lemma view_no_object w this :
  vars w !! this = None -> view this w = (Undefined, w).
Proof. intros H. unfold view, bind, get_m_data. by rewrite H. Qed.

(** [view] never changes the world. *)
Lemma view_pure w this : (view this w).2 = w.
Proof.
  destruct (vars w !! this) eqn:H.
  - by rewrite (view_live _ _ _ H).
  - by rewrite (view_no_object _ _ H).
Qed.

Lemma assign_value_live w this l c v :
  vars w !! this = Some (Some l) -> mem w !! l = Some c ->
  assign_value this v w =
    (Ret tt, World (<[l := v]> (mem w)) (vars w)
                   (transfers w ++ [HostToDevice l]) (garbage w)).
Proof.
  intros Hv Hm. unfold assign_value, bind. rewrite (view_live _ _ _ Hv).
  unfold VarView_copy_from_host, copy_to_view, cell. simpl. by rewrite Hm.
Qed.

Lemma to_T_written w this l v :
  vars w !! this = Some (Some l) -> mem w !! l = Some v ->
  to_T this w = (Ret v, World (mem w) (vars w) (transfers w ++ [DeviceToHost l])
                              (garbage w)).
Proof.
  intros Hv Hm. unfold to_T, bind. rewrite (view_live _ _ _ Hv).
  unfold VarView_copy_to, copy_from_view, cell. simpl. by rewrite Hm.
Qed.

Lemma DeviceVar_from_value_run w this v :
  let l := fresh (dom (mem w)) in
  DeviceVar_from_value this v w =
    (Ret tt, World (<[l := v]> (mem w)) (<[this := Some l]> (vars w))
                   (transfers w ++ [HostToDevice l]) (garbage w)).
Proof.
  intros l. unfold DeviceVar_from_value, bind at 1. unfold alloc. fold l.
  unfold bind at 1. unfold set_m_data, modify. cbn [mem vars transfers garbage].
  unfold bind. rewrite (view_live _ _ (Some l)) by apply lookup_insert_eq.
  unfold VarView_copy_from_host, copy_to_view, cell. simpl.
  rewrite lookup_insert_eq, insert_insert_eq. reflexivity.
Qed.

(** ** C8 *)

(** C8. A scalar constructed from a host value [v] converts back to [v],
    and a live scalar that is assigned a host value [v'] converts back to
    [v'], whatever it held before; this holds for [DeviceVar] and for
    [var_base], for any value type. *)
Theorem device_scalar_roundtrip w (new this : positive) (x : var_base) v v' :
  live w this -> is_Some (mem w !! vb_data x) ->
  ((run DeviceVar_from_value new v then to_T new)%host w).1 = Ret v
  /\ ((let* y := var_base_from_value v in var_base_to_T y)%host w).1 = Ret v
  /\ ((run assign_value this v' then to_T this)%host w).1 = Ret v'
  /\ ((run var_base_assign x v' then var_base_to_T x)%host w).1 = Ret v'.
Proof.
  intros (l & Hv & c & Hm) [cx Hx]. split_and!.
  - unfold bind. rewrite DeviceVar_from_value_run.
    erewrite to_T_written; [done | apply lookup_insert_eq ..].
  - unfold var_base_from_value, bind at 1. unfold bind at 1. unfold alloc.
    unfold bind at 1. unfold var_base_assign, fill_n_1.
    cbn [mem vars transfers garbage vb_data]. rewrite lookup_insert_eq.
    unfold bind, ret, var_base_to_T, copy_n_1. cbn [mem vb_data].
    by rewrite lookup_insert_eq.
  - unfold bind. rewrite (assign_value_live _ _ _ _ _ Hv Hm).
    erewrite to_T_written; [done | done | apply lookup_insert_eq].
  - unfold bind, var_base_assign, fill_n_1. rewrite Hx.
    unfold var_base_to_T, copy_n_1. cbn [mem]. by rewrite lookup_insert_eq.
Qed.

(** ** C10 *)

Lemma copy_to_view_keeps w (d : VarView) v :
  keeps_storage w (copy_to_view d v w).
Proof.
  unfold keeps_storage, copy_to_view, cell.
  destruct (vv_data d) as [l |]; simpl; [| done].
  destruct (mem w !! l) eqn:Hm; simpl; [| done].
  split; [done |]. rewrite dom_insert_L.
  apply subseteq_union_1_L, singleton_subseteq_l, elem_of_dom. eauto.
Qed.

Lemma copy_view_to_view_keeps w (d s : VarView) :
  keeps_storage w (copy_view_to_view d s w).
Proof.
  unfold keeps_storage, copy_view_to_view, cell.
  destruct (vv_data d) as [l |]; simpl; [| done].
  destruct (mem w !! l) eqn:Hm; simpl; [| done].
  destruct (vv_data s) as [ls |]; simpl; [| done].
  destruct (mem w !! ls) eqn:Hs; simpl; [| done].
  split; [done |]. rewrite dom_insert_L.
  apply subseteq_union_1_L, singleton_subseteq_l, elem_of_dom. eauto.
Qed.

Lemma copy_to_view_writes w (d : VarView) v l :
  vv_data d <> Some l -> mem (copy_to_view d v w).2 !! l = mem w !! l.
Proof.
  unfold copy_to_view, cell. intros Hne.
  destruct (vv_data d) as [ld |]; simpl; [| done].
  destruct (mem w !! ld) eqn:Hm; simpl; [| done].
  apply lookup_insert_ne. congruence.
Qed.

Lemma copy_view_to_view_writes w (d s : VarView) l :
  vv_data d <> Some l -> mem (copy_view_to_view d s w).2 !! l = mem w !! l.
Proof.
  unfold copy_view_to_view, cell. intros Hne.
  destruct (vv_data d) as [ld |]; simpl; [| done].
  destruct (mem w !! ld) eqn:Hm; simpl; [| done].
  destruct (vv_data s) as [ls |]; simpl; [| done].
  destruct (mem w !! ls) eqn:Hs; simpl; [| done].
  apply lookup_insert_ne. congruence.
Qed.

(** An operation that takes the view of [this] and then transfers into
    it. *)
Lemma through_view w this (k : VarView -> M (world T) transfer_error unit) :
  (forall d, keeps_storage w (k d w)) ->
  (forall d l, vv_data d <> Some l -> mem (k d w).2 !! l = mem w !! l) ->
  keeps_storage w ((let* d := view this in k d)%host w)
  /\ writes_own_cell w this ((let* d := view this in k d)%host w).
Proof.
  intros Hk Hw. unfold bind, writes_own_cell.
  destruct (vars w !! this) as [p |] eqn:Hv.
  - rewrite (view_live _ _ _ Hv). split; [apply Hk |].
    intros l Hl. apply Hw. simpl. congruence.
  - rewrite (view_no_object _ _ Hv). by split.
Qed.

(** The transfers of the three assignments on live storage. *)
Lemma copy_view_to_view_run w (ld ls : positive) (cd c : T) :
  mem w !! ld = Some cd -> mem w !! ls = Some c ->
  copy_view_to_view (MkVarView (Some ld)) (MkVarView (Some ls)) w =
    (Ret tt, World (<[ld := c]> (mem w)) (vars w)
                   (transfers w ++ [DeviceToDevice ld ls]) (garbage w)).
Proof.
  intros Hd Hs. unfold copy_view_to_view, cell. cbn. by rewrite Hd, Hs.
Qed.

Lemma assign_var_run w this other (lt lo : positive) (ct c : T) :
  this <> other ->
  vars w !! this = Some (Some lt) -> vars w !! other = Some (Some lo) ->
  mem w !! lt = Some ct -> mem w !! lo = Some c ->
  assign_var this other w =
    (Ret tt, World (<[lt := c]> (mem w)) (vars w)
                   (transfers w ++ [DeviceToDevice lt lo]) (garbage w)).
Proof.
  intros Hne Ht Ho Hmt Hmo. unfold assign_var. rewrite decide_False by done.
  unfold bind. rewrite (view_live _ _ _ Ht), (view_live _ _ _ Ho).
  by apply copy_view_to_view_run with ct.
Qed.

Lemma assign_view_run w this (lt lo : positive) (ct c : T) :
  vars w !! this = Some (Some lt) ->
  mem w !! lt = Some ct -> mem w !! lo = Some c ->
  assign_view this (MkVarView (Some lo)) w =
    (Ret tt, World (<[lt := c]> (mem w)) (vars w)
                   (transfers w ++ [DeviceToDevice lt lo]) (garbage w)).
Proof.
  intros Ht Hmt Hmo. unfold assign_view, bind. rewrite (view_live _ _ _ Ht).
  by apply copy_view_to_view_run with ct.
Qed.

(** C10. Copy-assignment from another scalar, assignment from a view and
    assignment from a host value leave every scalar's storage pointer and
    the set of allocated cells as they were, and write to no cell but the
    destination's own; assigning a scalar to itself returns at once with
    the world, its transfer log included, untouched.  On a scalar whose
    storage [lt] is live each of them does exactly one transfer into [lt]
    and nothing else: the host value, or what the live storage of the
    source view or of the other scalar holds, is then the content of
    [lt], and no storage was allocated. *)
Theorem assignment_keeps_storage w this other (ov : VarView) v :
  (keeps_storage w (assign_var this other w)
   /\ writes_own_cell w this (assign_var this other w))
  /\ (keeps_storage w (assign_view this ov w)
      /\ writes_own_cell w this (assign_view this ov w))
  /\ (keeps_storage w (assign_value this v w)
      /\ writes_own_cell w this (assign_value this v w))
  /\ assign_var this this w = (Ret tt, w)
  /\ (forall lt : positive,
        vars w !! this = Some (Some lt) -> is_Some (mem w !! lt) ->
        assign_value this v w =
          (Ret tt, World (<[lt := v]> (mem w)) (vars w)
                         (transfers w ++ [HostToDevice lt]) (garbage w))
        /\ (forall (lo : positive) (c : T),
              vv_data ov = Some lo -> mem w !! lo = Some c ->
              assign_view this ov w =
                (Ret tt, World (<[lt := c]> (mem w)) (vars w)
                               (transfers w ++ [DeviceToDevice lt lo]) (garbage w)))
        /\ (forall (lo : positive) (c : T),
              this <> other ->
              vars w !! other = Some (Some lo) -> mem w !! lo = Some c ->
              assign_var this other w =
                (Ret tt, World (<[lt := c]> (mem w)) (vars w)
                               (transfers w ++ [DeviceToDevice lt lo]) (garbage w)))).
Proof.
  split; [| split; [| split; [| split]]].
  - unfold assign_var. destruct (decide (this = other)) as [-> | Hne].
    + by split.
    + apply (through_view w this
               (fun d => (let* o := view other in VarView_copy_from d o)%host)).
      * intros d. unfold bind.
        destruct (vars w !! other) as [p |] eqn:Ho.
        -- rewrite (view_live _ _ _ Ho). apply copy_view_to_view_keeps.
        -- by rewrite (view_no_object _ _ Ho).
      * intros d l Hd. unfold bind.
        destruct (vars w !! other) as [p |] eqn:Ho.
        -- rewrite (view_live _ _ _ Ho). by apply copy_view_to_view_writes.
        -- by rewrite (view_no_object _ _ Ho).
  - apply (through_view w this (fun d => VarView_copy_from d ov)).
    + intros d. apply copy_view_to_view_keeps.
    + intros d l Hd. by apply copy_view_to_view_writes.
  - apply (through_view w this (fun d => VarView_copy_from_host d v)).
    + intros d. apply copy_to_view_keeps.
    + intros d l Hd. by apply copy_to_view_writes.
  - unfold assign_var. by rewrite decide_True.
  - intros lt Ht [ct Hmt]. split; [by eapply assign_value_live |]. split.
    + intros lo c Hov Hmo. destruct ov as [p]. cbn in Hov. subst p.
      by eapply assign_view_run.
    + intros lo c Hne Ho Hmo. by eapply assign_var_run.
Qed.

End ScalarFacts.


Section ScalarExamples.

Lemma device_scalar_roundtrip_witness :
  ((run DeviceVar_from_value 3%positive 7 then to_T 3%positive)%host w_example).1 = Ret 7
  /\ ((run assign_value 1%positive 9 then to_T 1%positive)%host w_example).1 = Ret 9
  /\ ((run var_base_assign (VarBase 2) 9 then var_base_to_T (VarBase 2))%host
        w_example).1 = Ret 9.
Proof.
  destruct (device_scalar_roundtrip w_example 3%positive 1%positive (VarBase 2) 7 9)
    as (H1 & _ & H3 & H4).
  - exists 1%positive. split; [vm_compute; reflexivity |].
    exists 5. vm_compute. reflexivity.
  - exists 8. vm_compute. reflexivity.
  - exact (conj H1 (conj H3 H4)).
Defined.

Lemma assignment_keeps_storage_witness :
  vars w_example2 !! 1%positive = Some (Some 1%positive)
  /\ vars w_example2 !! 3%positive = Some (Some 3%positive)
  /\ mem w_example2 !! 1%positive = Some 5
  /\ mem w_example2 !! 3%positive = Some 7
  /\ assign_value 1%positive 9 w_example2 =
       (Ret tt, World (<[1%positive := 9]> (mem w_example2)) (vars w_example2)
                      (transfers w_example2 ++ [HostToDevice 1])
                      (garbage w_example2))
  /\ assign_view 1%positive (MkVarView (Some 3%positive)) w_example2 =
       (Ret tt, World (<[1%positive := 7]> (mem w_example2)) (vars w_example2)
                      (transfers w_example2 ++ [DeviceToDevice 1 3])
                      (garbage w_example2))
  /\ assign_var 1%positive 3%positive w_example2 =
       (Ret tt, World (<[1%positive := 7]> (mem w_example2)) (vars w_example2)
                      (transfers w_example2 ++ [DeviceToDevice 1 3])
                      (garbage w_example2))
  /\ assign_var 1%positive 1%positive w_example2 = (Ret tt, w_example2).
Proof.
  assert (Hv1 : vars w_example2 !! 1%positive = Some (Some 1%positive))
    by (vm_compute; reflexivity).
  assert (Hv3 : vars w_example2 !! 3%positive = Some (Some 3%positive))
    by (vm_compute; reflexivity).
  assert (Hm1 : mem w_example2 !! 1%positive = Some 5) by (vm_compute; reflexivity).
  assert (Hm3 : mem w_example2 !! 3%positive = Some 7) by (vm_compute; reflexivity).
  destruct (assignment_keeps_storage w_example2 1%positive 3%positive
              (MkVarView (Some 3%positive)) 9)
    as (_ & _ & _ & Hself & Hlive).
  destruct (Hlive 1%positive Hv1) as (Hval & Hview & Hvar);
    [rewrite Hm1; eauto |].
  split; [exact Hv1 |]. split; [exact Hv3 |]. split; [exact Hm1 |].
  split; [exact Hm3 |]. split; [exact Hval |].
  split; [exact (Hview 3%positive 7 eq_refl Hm3) |].
  split; [apply (Hvar 3%positive 7); [discriminate | exact Hv3 | exact Hm3] |].
  exact Hself.
Defined.

End ScalarExamples.

(** ** More on the device scalars *)
Section MoreScalars.
Context {T : Type}.
Implicit Types (w : world T) (this other new : positive) (v : T).

Lemma DeviceVar_copy_run w new other (lo : positive) (c : T) :
  new <> other ->
  vars w !! other = Some (Some lo) -> mem w !! lo = Some c ->
  let l := fresh (dom (mem w)) in
  DeviceVar_copy new other w =
    (Ret tt, World (<[l := c]> (mem w)) (<[new := Some l]> (vars w))
                   (transfers w ++ [DeviceToDevice l lo]) (garbage w)).
Proof.
  intros Hne Ho Hm l.
  assert (Hl : l <> lo).
  { intros E. pose proof (fresh_cell w) as Hf. fold l in Hf. rewrite E, Hm in Hf.
    discriminate. }
  unfold DeviceVar_copy, bind at 1. unfold alloc. fold l.
  unfold bind at 1. unfold set_m_data, modify. cbn [mem vars transfers garbage].
  unfold bind. rewrite (view_live _ _ (Some l)) by apply lookup_insert_eq.
  rewrite (view_live _ _ (Some lo))
    by (cbn [vars]; by rewrite lookup_insert_ne).
  unfold VarView_copy_from.
  rewrite (copy_view_to_view_run _ l lo (garbage w l) c);
    cbn [mem vars transfers garbage];
    [by rewrite insert_insert_eq | apply lookup_insert_eq | by rewrite lookup_insert_ne].
Qed.

Lemma holds_live w this v : holds w this v -> live w this.
Proof. intros (l & Hv & Hm). exists l. split; [done | eauto]. Qed.

(** X10. Copy construction gives the new scalar fresh storage of its own
    with the value of the source: both then convert to that value, and a
    later assignment to the copy leaves the source as it is. *)
Theorem DeviceVar_copy_independent w new other v :
  new <> other -> holds w other v ->
  let r := DeviceVar_copy new other w in
  r.1 = Ret tt
  /\ mem w !! fresh (dom (mem w)) = None
  /\ vars r.2 !! new = Some (Some (fresh (dom (mem w))))
  /\ vars r.2 !! other = vars w !! other
  /\ (to_T new r.2).1 = Ret v
  /\ (to_T other r.2).1 = Ret v
  /\ forall v',
      ((run assign_value new v' then to_T new)%host r.2).1 = Ret v'
      /\ ((run assign_value new v' then to_T other)%host r.2).1 = Ret v.
Proof.
  intros Hne (lo & Ho & Hm) r.
  set (l := fresh (dom (mem w))).
  assert (Hl : l <> lo).
  { intros E. pose proof (fresh_cell w) as Hf. fold l in Hf. rewrite E, Hm in Hf.
    discriminate. }
  assert (Hr : r = (Ret tt, World (<[l := v]> (mem w)) (<[new := Some l]> (vars w))
                                  (transfers w ++ [DeviceToDevice l lo]) (garbage w)))
    by (by apply DeviceVar_copy_run).
  rewrite Hr. cbn [fst snd vars].
  assert (Hvn : forall (m : gmap positive T) tr g,
            vars (World m (<[new := Some l]> (vars w)) tr g) !! new = Some (Some l))
    by (intros; apply lookup_insert_eq).
  assert (Hvo : forall (m : gmap positive T) tr g,
            vars (World m (<[new := Some l]> (vars w)) tr g) !! other = Some (Some lo))
    by (intros; cbn; by rewrite lookup_insert_ne).
  split_and!.
  - done.
  - apply fresh_cell.
  - apply lookup_insert_eq.
  - by rewrite lookup_insert_ne.
  - erewrite to_T_written; [done | apply Hvn | apply lookup_insert_eq].
  - erewrite to_T_written; [done | apply Hvo | cbn; by rewrite lookup_insert_ne].
  - intros v'. unfold bind.
    erewrite assign_value_live; [| apply Hvn | apply lookup_insert_eq].
    cbn [mem vars transfers garbage]. split.
    + erewrite to_T_written; [done | apply Hvn | apply lookup_insert_eq].
    + erewrite to_T_written; [done | apply Hvo |].
      cbn. by rewrite !lookup_insert_ne.
Qed.

(** X11. Copy assignment between two distinct live scalars does exactly one
    storage-to-storage transfer into the destination's own storage: the
    destination then converts to the source's value and the source still
    does; assigning the source's view, or [copy_from] of it, does the
    same. *)
Theorem assign_var_copies_value w this other v :
  this <> other -> live w this -> holds w other v ->
  let r := assign_var this other w in
  exists lt lo,
    vars w !! this = Some (Some lt) /\ vars w !! other = Some (Some lo)
    /\ r.1 = Ret tt
    /\ vars r.2 = vars w
    /\ transfers r.2 = transfers w ++ [DeviceToDevice lt lo]
    /\ (to_T this r.2).1 = Ret v
    /\ (to_T other r.2).1 = Ret v
    /\ assign_view this (MkVarView (Some lo)) w = r
    /\ DeviceVar_copy_from this (MkVarView (Some lo)) w = r.
Proof.
  intros Hne (lt & Ht & ct & Hmt) (lo & Ho & Hmo) r.
  exists lt, lo.
  assert (Hr : r = (Ret tt, World (<[lt := v]> (mem w)) (vars w)
                                  (transfers w ++ [DeviceToDevice lt lo]) (garbage w)))
    by (by eapply assign_var_run).
  assert (Hv : assign_view this (MkVarView (Some lo)) w = r)
    by (rewrite Hr; by eapply assign_view_run).
  rewrite Hr. cbn [fst snd vars transfers]. split_and!; try done.
  - erewrite to_T_written; [done | done | apply lookup_insert_eq].
  - erewrite to_T_written; [done | done |]. cbn [mem].
    destruct (decide (lt = lo)) as [-> | Hd];
      [apply lookup_insert_eq | by rewrite lookup_insert_ne].
  - by rewrite <- Hr.
  - by rewrite <- Hr.
Qed.

(** X12. Assigning a live scalar its own view is not skipped the way
    self-assignment of the scalar is: one transfer from its storage to
    itself is done, and the scalar still converts to the value it held. *)
Theorem assign_own_view_transfers w this v :
  holds w this v ->
  exists l,
    vars w !! this = Some (Some l)
    /\ (let* d := view this in assign_view this d)%host w =
         (Ret tt, World (mem w) (vars w) (transfers w ++ [DeviceToDevice l l])
                        (garbage w))
    /\ assign_var this this w = (Ret tt, w)
    /\ (to_T this ((let* d := view this in assign_view this d)%host w).2).1 = Ret v.
Proof.
  intros (l & Hv & Hm). exists l.
  assert (Hrun : (let* d := view this in assign_view this d)%host w =
                   (Ret tt, World (mem w) (vars w)
                                  (transfers w ++ [DeviceToDevice l l]) (garbage w))).
  { unfold bind. rewrite (view_live _ _ _ Hv).
    erewrite assign_view_run; [| done ..]. by rewrite insert_id. }
  split_and!; [done | done | |].
  - unfold assign_var. by rewrite decide_True.
  - rewrite Hrun. cbn [snd]. erewrite to_T_written; done.
Qed.

(** X13. Move construction hands the storage pointer over without any
    transfer or allocation: the new scalar converts to the value the source
    held, the source's pointer is null, and every transfer on the source
    from then on fails. *)
Theorem DeviceVar_move_hands_over w this other v :
  this <> other -> holds w other v ->
  let r := DeviceVar_move this other w in
  r.1 = Ret tt
  /\ mem r.2 = mem w /\ transfers r.2 = transfers w
  /\ vars r.2 !! this = vars w !! other
  /\ vars r.2 !! other = Some None
  /\ (forall o, o <> this -> o <> other -> vars r.2 !! o = vars w !! o)
  /\ (to_T this r.2).1 = Ret v
  /\ to_T other r.2 = (Throw BadStorage, r.2)
  /\ (forall v', assign_value other v' r.2 = (Throw BadStorage, r.2))
  /\ assign_var other this r.2 = (Throw BadStorage, r.2)
  /\ viewer other r.2 = (Ret None, r.2).
Proof.
  intros Hne (lo & Ho & Hm) r.
  assert (Hr : r = (Ret tt, World (mem w)
                                  (<[other := None]> (<[this := Some lo]> (vars w)))
                                  (transfers w) (garbage w))).
  { unfold r, DeviceVar_move, bind, get_m_data. by rewrite Ho. }
  rewrite Hr. cbn [fst snd mem vars transfers].
  set (w' := World (mem w) (<[other := None]> (<[this := Some lo]> (vars w)))
                   (transfers w) (garbage w)).
  assert (Hvo : vars w' !! other = Some None) by apply lookup_insert_eq.
  assert (Hvt : vars w' !! this = Some (Some lo)).
  { cbn. rewrite lookup_insert_ne by done. apply lookup_insert_eq. }
  split_and!.
  - done.
  - done.
  - done.
  - rewrite Ho. exact Hvt.
  - exact Hvo.
  - intros o H1 H2. by rewrite !lookup_insert_ne.
  - fold w'. by erewrite to_T_written.
  - fold w'. unfold to_T, bind. by rewrite (view_live _ _ _ Hvo).
  - intros v'. fold w'. unfold assign_value, bind. by rewrite (view_live _ _ _ Hvo).
  - fold w'. unfold assign_var. rewrite decide_False by done.
    unfold bind. by rewrite (view_live _ _ _ Hvo), (view_live _ _ _ Hvt).
  - fold w'. unfold viewer, get_m_data. by rewrite Hvo.
Qed.

Lemma copy_to_view_fail w (d : VarView) v :
  throws (copy_to_view d v w).1 -> (copy_to_view d v w).2 = w.
Proof.
  unfold copy_to_view, cell. destruct (vv_data d) as [l |]; cbn; [| done].
  by destruct (mem w !! l).
Qed.

Lemma copy_view_to_view_fail w (d s : VarView) :
  throws (copy_view_to_view d s w).1 -> (copy_view_to_view d s w).2 = w.
Proof.
  unfold copy_view_to_view, cell. destruct (vv_data d) as [l |]; cbn; [| done].
  destruct (mem w !! l); cbn; [| done].
  destruct (vv_data s) as [ls |]; cbn; [| done].
  by destruct (mem w !! ls).
Qed.

Lemma copy_from_view_pure w (s : VarView) :
  mem (copy_from_view s w).2 = mem w
  /\ vars (copy_from_view s w).2 = vars w
  /\ (throws (copy_from_view s w).1 -> (copy_from_view s w).2 = w).
Proof.
  unfold copy_from_view, cell. destruct (vv_data s) as [l |]; cbn; [| done].
  by destruct (mem w !! l) as [v |].
Qed.

Lemma through_view_fail {A} w this (k : VarView -> M (world T) transfer_error A) :
  (forall d, throws (k d w).1 -> (k d w).2 = w) ->
  throws ((let* d := view this in k d)%host w).1 ->
  ((let* d := view this in k d)%host w).2 = w.
Proof.
  intros Hk. unfold bind. destruct (vars w !! this) as [p |] eqn:Hv.
  - rewrite (view_live _ _ _ Hv). apply Hk.
  - by rewrite (view_no_object _ _ Hv).
Qed.

Lemma to_T_pure w this :
  mem (to_T this w).2 = mem w
  /\ vars (to_T this w).2 = vars w
  /\ (throws (to_T this w).1 -> (to_T this w).2 = w).
Proof.
  unfold to_T, bind. destruct (vars w !! this) as [p |] eqn:Hv.
  - rewrite (view_live _ _ _ Hv). apply copy_from_view_pure.
  - by rewrite (view_no_object _ _ Hv).
Qed.

(** X14. The assignments (from a scalar, a view or a host value) and the
    conversion to a host value do nothing but take views and call the
    transfer primitive once; that primitive is modelled from the spec and
    raises the transfer error, having transferred nothing, when a pointer
    it is given is null or addresses no live storage, as the pointer of a
    moved-from scalar.  So when one of them raises a transfer error the
    world is as it was before the call.  A conversion never changes any
    storage or pointer, whether it succeeds or fails. *)
Theorem failed_transfer_changes_nothing w this other (ov : VarView) v :
  (throws (assign_var this other w).1 -> (assign_var this other w).2 = w)
  /\ (throws (assign_view this ov w).1 -> (assign_view this ov w).2 = w)
  /\ (throws (assign_value this v w).1 -> (assign_value this v w).2 = w)
  /\ (throws (to_T this w).1 -> (to_T this w).2 = w)
  /\ mem (to_T this w).2 = mem w
  /\ vars (to_T this w).2 = vars w.
Proof.
  split_and!.
  - unfold assign_var. destruct (decide (this = other)); [done |].
    apply (through_view_fail w this
             (fun d => (let* o := view other in VarView_copy_from d o)%host)).
    intros d. unfold bind. destruct (vars w !! other) as [p |] eqn:Ho.
    + rewrite (view_live _ _ _ Ho). apply copy_view_to_view_fail.
    + by rewrite (view_no_object _ _ Ho).
  - apply (through_view_fail w this (fun d => VarView_copy_from d ov)).
    intros d. apply copy_view_to_view_fail.
  - apply (through_view_fail w this (fun d => VarView_copy_from_host d v)).
    intros d. apply copy_to_view_fail.
  - apply to_T_pure.
  - apply to_T_pure.
  - apply to_T_pure.
Qed.

(** X15. Two [var_base] scalars constructed one after the other get
    distinct storage, each fresh: each converts to its own value, assigning
    to one leaves the other's value, and after the one is destroyed the
    other still converts to its value; no other cell is touched. *)
Theorem var_base_storage_apart w (v1 v2 : T) :
  exists (x y : var_base) (w2 : world T),
    (let* x := var_base_from_value v1 in
     let* y := var_base_from_value v2 in
     ret (x, y))%host w = (Ret (x, y), w2)
    /\ vb_data x <> vb_data y
    /\ mem w !! vb_data x = None /\ mem w !! vb_data y = None
    /\ var_base_to_T x w2 = (Ret v1, w2)
    /\ var_base_to_T y w2 = (Ret v2, w2)
    /\ (forall v3, ((run var_base_assign y v3 then var_base_to_T x)%host w2).1 = Ret v1)
    /\ ((run var_base_destroy x then var_base_to_T y)%host w2).1 = Ret v2
    /\ (forall l, l <> vb_data x -> l <> vb_data y -> mem w2 !! l = mem w !! l).
Proof.
  set (lx := fresh (dom (mem w))).
  set (m1 := <[lx := v1]> (mem w)).
  set (ly := fresh (dom m1)).
  assert (Hlx : mem w !! lx = None) by apply fresh_cell.
  assert (Hly1 : m1 !! ly = None) by (apply not_elem_of_dom, is_fresh).
  assert (Hne : lx <> ly).
  { intros E. rewrite <- E in Hly1. unfold m1 in Hly1.
    by rewrite lookup_insert_eq in Hly1. }
  assert (Hly : mem w !! ly = None).
  { unfold m1 in Hly1. by rewrite lookup_insert_ne in Hly1. }
  exists (VarBase lx), (VarBase ly),
    (World (<[ly := v2]> m1) (vars w) (transfers w) (garbage w)).
  assert (Hfrom : forall (w0 : world T) v0,
            var_base_from_value v0 w0 =
              (Ret (VarBase (fresh (dom (mem w0)))),
               World (<[fresh (dom (mem w0)) := v0]> (mem w0)) (vars w0)
                     (transfers w0) (garbage w0))).
  { intros w0 v0. unfold var_base_from_value, bind at 1. unfold alloc.
    unfold bind at 1. unfold var_base_assign, fill_n_1.
    cbn [mem vars transfers garbage vb_data]. rewrite lookup_insert_eq.
    unfold bind, ret. cbn [mem vars transfers garbage]. by rewrite insert_insert_eq. }
  cbn [vb_data]. split_and!.
  - unfold bind at 1. rewrite Hfrom. fold lx. fold m1.
    unfold bind. rewrite Hfrom. reflexivity.
  - done.
  - done.
  - done.
  - unfold var_base_to_T, copy_n_1, m1. cbn [vb_data mem].
    rewrite lookup_insert_ne by done. by rewrite lookup_insert_eq.
  - unfold var_base_to_T, copy_n_1. cbn [vb_data mem].
    by rewrite lookup_insert_eq.
  - intros v3. unfold bind, var_base_assign, fill_n_1. cbn [vb_data mem].
    rewrite lookup_insert_eq. unfold var_base_to_T, copy_n_1, m1. cbn [vb_data mem].
    rewrite !(lookup_insert_ne _ ly) by done. by rewrite lookup_insert_eq.
  - unfold bind, var_base_destroy, deallocate, var_base_to_T, copy_n_1, m1.
    cbn [vb_data mem]. rewrite (lookup_insert_ne _ ly) by done.
    rewrite lookup_insert_eq. cbn [mem].
    rewrite lookup_delete_ne by done. by rewrite lookup_insert_eq.
  - intros l H1 H2. cbn [mem]. unfold m1. by rewrite !lookup_insert_ne.
Qed.

Lemma owns_exclusively_same w (w' : world T) :
  vars w' = vars w -> dom (mem w') = dom (mem w) ->
  owns_exclusively w -> owns_exclusively w'.
Proof. unfold owns_exclusively. by intros -> ->. Qed.

Lemma owns_exclusively_alloc w (w' : world T) this :
  vars w' = <[this := Some (fresh (dom (mem w)))]> (vars w) ->
  dom (mem w') = {[fresh (dom (mem w))]} ∪ dom (mem w) ->
  owns_exclusively w -> owns_exclusively w'.
Proof.
  intros Hv Hd [Hwf Hex]. unfold owns_exclusively. rewrite Hv, Hd.
  pose proof (is_fresh (dom (mem w))) as Hf.
  set (l := fresh (dom (mem w))) in *.
  split.
  - intros o l'. destruct (decide (this = o)) as [<- | Hne].
    + rewrite lookup_insert_eq. intros [= <-].
      apply elem_of_union. left. by apply elem_of_singleton.
    + rewrite lookup_insert_ne by done. intros Ho%Hwf.
      apply elem_of_union. by right.
  - intros o1 o2 l'.
    destruct (decide (this = o1)) as [<- | H1], (decide (this = o2)) as [<- | H2];
      rewrite ?lookup_insert_eq, ?lookup_insert_ne by done.
    + done.
    + intros [= <-] Ho%Hwf. done.
    + intros Ho%Hwf [= <-]. done.
    + apply Hex.
Qed.

Lemma through_view_keeps w this (k : VarView -> M (world T) transfer_error unit) :
  (forall d, keeps_storage w (k d w)) ->
  keeps_storage w ((let* d := view this in k d)%host w).
Proof.
  intros Hk. unfold bind. destruct (vars w !! this) as [p |] eqn:Hv.
  - rewrite (view_live _ _ _ Hv). apply Hk.
  - rewrite (view_no_object _ _ Hv). by split.
Qed.

Lemma assignments_keep w this other (ov : VarView) v :
  keeps_storage w (assign_var this other w)
  /\ keeps_storage w (assign_view this ov w)
  /\ keeps_storage w (assign_value this v w).
Proof.
  split_and!.
  - unfold assign_var. destruct (decide (this = other)); [by split |].
    apply (through_view_keeps w this
             (fun d => (let* o := view other in VarView_copy_from d o)%host)).
    intros d. unfold bind. destruct (vars w !! other) as [p |] eqn:Ho.
    + rewrite (view_live _ _ _ Ho). apply copy_view_to_view_keeps.
    + rewrite (view_no_object _ _ Ho). by split.
  - apply (through_view_keeps w this (fun d => VarView_copy_from d ov)).
    intros d. apply copy_view_to_view_keeps.
  - apply (through_view_keeps w this (fun d => VarView_copy_from_host d v)).
    intros d. apply copy_to_view_keeps.
Qed.

(** X16. Exclusive ownership is an invariant of the scalars: if every
    scalar's non-null pointer addresses allocated storage and no two
    scalars share storage, that is still so after any constructor, the move
    constructor, any assignment, [copy_from], or a conversion to a host
    value, whether the operation succeeds or fails. *)
Theorem exclusive_ownership_preserved w this other (ov : VarView) v :
  owns_exclusively w ->
  owns_exclusively (DeviceVar_default this w).2
  /\ owns_exclusively (DeviceVar_from_value this v w).2
  /\ owns_exclusively (DeviceVar_copy this other w).2
  /\ owns_exclusively (DeviceVar_move this other w).2
  /\ owns_exclusively (assign_var this other w).2
  /\ owns_exclusively (assign_view this ov w).2
  /\ owns_exclusively (DeviceVar_copy_from this ov w).2
  /\ owns_exclusively (assign_value this v w).2
  /\ owns_exclusively (to_T this w).2.
Proof.
  intros Hown.
  destruct (assignments_keep w this other ov v) as (Kvar & Kview & Kval).
  set (l := fresh (dom (mem w))).
  set (w1 := World (<[l := garbage w l]> (mem w)) (<[this := Some l]> (vars w))
                   (transfers w) (garbage w)).
  assert (Hw1 : owns_exclusively w1).
  { apply (owns_exclusively_alloc w w1 this); [done | | done].
    unfold w1. cbn [mem]. by rewrite dom_insert_L. }
  split_and!.
  - done.
  - assert (E : DeviceVar_from_value this v w = assign_value this v w1).
    { unfold DeviceVar_from_value, bind at 1. unfold alloc. fold l.
      unfold bind at 1. unfold set_m_data, modify. reflexivity. }
    rewrite E. destruct (assignments_keep w1 this other ov v) as (_ & _ & [Hv Hd]).
    by apply (owns_exclusively_same w1).
  - assert (E : DeviceVar_copy this other w =
                (let* d := view this in
                 let* o := view other in VarView_copy_from d o)%host w1).
    { unfold DeviceVar_copy, bind at 1. unfold alloc. fold l.
      unfold bind at 1. unfold set_m_data, modify. reflexivity. }
    rewrite E.
    destruct (through_view_keeps w1 this
                (fun d => (let* o := view other in VarView_copy_from d o)%host))
      as [Hv Hd].
    { intros d. unfold bind. destruct (vars w1 !! other) as [p |] eqn:Ho.
      + rewrite (view_live _ _ _ Ho). apply copy_view_to_view_keeps.
      + rewrite (view_no_object _ _ Ho). by split. }
    by apply (owns_exclusively_same w1).
  - unfold DeviceVar_move, bind, get_m_data.
    destruct (vars w !! other) as [d |] eqn:Ho; [| done].
    cbn [snd set_m_data modify]. unfold set_m_data, modify. cbn [snd mem vars].
    destruct Hown as [Hwf Hex]. split; cbn [mem vars].
    + intros o l'. destruct (decide (other = o)) as [<- | H1];
        [by rewrite lookup_insert_eq |].
      rewrite lookup_insert_ne by done.
      destruct (decide (this = o)) as [<- | H2].
      * rewrite lookup_insert_eq. intros [= ->]. by eapply Hwf.
      * rewrite lookup_insert_ne by done. apply Hwf.
    + intros o1 o2 l'.
      destruct (decide (other = o1)) as [<- | H1];
        [by rewrite lookup_insert_eq |].
      destruct (decide (other = o2)) as [<- | H2];
        [rewrite (lookup_insert_eq _ other); by intros _ [=] |].
      rewrite !(lookup_insert_ne _ other) by done.
      destruct (decide (this = o1)) as [<- | H3], (decide (this = o2)) as [<- | H4];
        rewrite ?lookup_insert_eq, ?lookup_insert_ne by done.
      * done.
      * intros [= ->] Ho2. exfalso. apply H2. by eapply Hex.
      * intros Ho1 [= ->]. exfalso. apply H1. by eapply Hex.
      * apply Hex.
  - destruct Kvar. by apply (owns_exclusively_same w).
  - destruct Kview. by apply (owns_exclusively_same w).
  - destruct Kview. by apply (owns_exclusively_same w).
  - destruct Kval. by apply (owns_exclusively_same w).
  - destruct (to_T_pure w this) as (Hm & Hv & _).
    apply (owns_exclusively_same w); [done | by rewrite Hm | done].
Qed.

End MoreScalars.

Section MoreScalarExamples.

Lemma DeviceVar_copy_independent_witness :
  (to_T 3%positive (DeviceVar_copy 3%positive 1%positive w_example).2).1 = Ret 5
  /\ ((run assign_value 3%positive 9 then to_T 1%positive)%host
        (DeviceVar_copy 3%positive 1%positive w_example).2).1 = Ret 5.
Proof.
  destruct (DeviceVar_copy_independent w_example 3%positive 1%positive 5)
    as (_ & _ & _ & _ & Hnew & _ & Hlater).
  - vm_compute. discriminate.
  - exists 1%positive. split; vm_compute; reflexivity.
  - exact (conj Hnew (proj2 (Hlater 9))).
Defined.

Lemma assign_var_copies_value_witness :
  (to_T 3%positive (assign_var 3%positive 1%positive w_example2).2).1 = Ret 5
  /\ (to_T 1%positive (assign_var 3%positive 1%positive w_example2).2).1 = Ret 5.
Proof.
  destruct (assign_var_copies_value w_example2 3%positive 1%positive 5)
    as (lt & lo & _ & _ & _ & _ & _ & Hthis & Hother & _).
  - vm_compute. discriminate.
  - exists 3%positive. split; [vm_compute; reflexivity |].
    exists 7. vm_compute. reflexivity.
  - exists 1%positive. split; vm_compute; reflexivity.
  - exact (conj Hthis Hother).
Defined.

Lemma assign_own_view_transfers_witness :
  (let* d := view 1%positive in assign_view 1%positive d)%host w_example =
    (Ret tt, World (mem w_example) (vars w_example)
                   (transfers w_example ++ [DeviceToDevice 1 1])
                   (garbage w_example)).
Proof.
  destruct (assign_own_view_transfers w_example 1%positive 5)
    as (l & Hl & Hrun & _).
  - exists 1%positive. split; vm_compute; reflexivity.
  - assert (l = 1%positive) as ->.
    { vm_compute in Hl. by injection Hl as <-. }
    exact Hrun.
Defined.

Lemma DeviceVar_move_hands_over_witness :
  let r := DeviceVar_move 4%positive 1%positive w_example in
  (to_T 4%positive r.2).1 = Ret 5
  /\ to_T 1%positive r.2 = (Throw BadStorage, r.2).
Proof.
  intros r.
  destruct (DeviceVar_move_hands_over w_example 4%positive 1%positive 5)
    as (_ & _ & _ & _ & _ & _ & Hnew & Hold & _).
  - vm_compute. discriminate.
  - exists 1%positive. split; vm_compute; reflexivity.
  - exact (conj Hnew Hold).
Defined.

(** After the scalar at 1 has been moved from, its pointer is null: every
    transfer on it fails, and leaves the world, in which the scalars at 3
    and 4 are live, as it was. *)
Lemma failed_transfer_changes_nothing_witness :
  let w := (DeviceVar_move 4%positive 1%positive w_example2).2 in
  vars w !! 1%positive = Some None
  /\ (assign_value 1%positive 9 w).1 = Throw BadStorage
  /\ (assign_value 1%positive 9 w).2 = w
  /\ (assign_var 1%positive 3%positive w).1 = Throw BadStorage
  /\ (assign_var 1%positive 3%positive w).2 = w
  /\ (to_T 1%positive w).1 = Throw BadStorage
  /\ (to_T 1%positive w).2 = w.
Proof.
  intros w.
  assert (Hval : (assign_value 1%positive 9 w).1 = Throw BadStorage)
    by (vm_compute; reflexivity).
  assert (Hvar : (assign_var 1%positive 3%positive w).1 = Throw BadStorage)
    by (vm_compute; reflexivity).
  assert (Hto : (to_T 1%positive w).1 = Throw BadStorage)
    by (vm_compute; reflexivity).
  destruct (failed_transfer_changes_nothing w 1%positive 3%positive
              (MkVarView None) 9) as (Kvar & _ & Kval & Kto & _).
  split; [vm_compute; reflexivity |].
  split; [exact Hval |]. split; [apply Kval; rewrite Hval; exact I |].
  split; [exact Hvar |]. split; [apply Kvar; rewrite Hvar; exact I |].
  split; [exact Hto |]. apply Kto. rewrite Hto. exact I.
Defined.

(** The scalars of [w_example2] and their storage. *)
Lemma w_example2_vars (o p : positive) :
  vars w_example2 !! o = Some (Some p) ->
  (o = 1%positive /\ p = 1%positive) \/ (o = 3%positive /\ p = 3%positive).
Proof.
  assert (Hv : vars w_example2
               = <[3%positive := Some 3%positive]>
                   (<[1%positive := Some 1%positive]> ∅))
    by (vm_compute; reflexivity).
  rewrite Hv.
  destruct (decide (o = 3%positive)) as [-> | H3].
  { rewrite lookup_insert_eq. intros [= <-]. by right. }
  rewrite lookup_insert_ne by done.
  destruct (decide (o = 1%positive)) as [-> | H1].
  { rewrite lookup_insert_eq. intros [= <-]. by left. }
  rewrite lookup_insert_ne by done. by rewrite lookup_empty.
Qed.

Lemma w_example2_owns : owns_exclusively w_example2.
Proof.
  split.
  - intros o l [[-> ->] | [-> ->]]%w_example2_vars; apply elem_of_dom;
      vm_compute; eauto.
  - intros o1 o2 l [[-> ->] | [-> ->]]%w_example2_vars
                   [[-> E] | [-> E]]%w_example2_vars; done.
Qed.

(** Two live scalars, at 1 and at 3: a third is copy-constructed or
    move-constructed from the first, and the first is assigned the second,
    its view and a host value. *)
Lemma exclusive_ownership_preserved_witness :
  owns_exclusively w_example2
  /\ live w_example2 1%positive /\ live w_example2 3%positive
  /\ owns_exclusively (DeviceVar_copy 4%positive 1%positive w_example2).2
  /\ owns_exclusively (DeviceVar_move 4%positive 1%positive w_example2).2
  /\ owns_exclusively (assign_var 1%positive 3%positive w_example2).2
  /\ owns_exclusively (assign_view 1%positive (MkVarView (Some 3%positive))
                                   w_example2).2
  /\ owns_exclusively (assign_value 1%positive 9 w_example2).2
  /\ owns_exclusively (to_T 1%positive w_example2).2.
Proof.
  pose proof w_example2_owns as H0.
  destruct (exclusive_ownership_preserved w_example2 4%positive 1%positive
              (MkVarView (Some 3%positive)) 9 H0)
    as (_ & _ & Hcopy & Hmove & _).
  destruct (exclusive_ownership_preserved w_example2 1%positive 3%positive
              (MkVarView (Some 3%positive)) 9 H0)
    as (_ & _ & _ & _ & Hvar & Hview & _ & Hval & Hto).
  split; [exact H0 |].
  split; [exists 1%positive; split; [| exists 5]; vm_compute; reflexivity |].
  split; [exists 3%positive; split; [| exists 7]; vm_compute; reflexivity |].
  exact (conj Hcopy (conj Hmove (conj Hvar (conj Hview (conj Hval Hto))))).
Defined.

End MoreScalarExamples.
Import GraphViewer.

Section ViewerFacts.
Variable cudaGraphLaunch : Z -> cudaStream_t -> Z.
Variable cudaGetErrorString : Z -> string.
Variables kernel_name name : string.

Local Abbreviation launch_on_device :=
  (launch cudaGraphLaunch cudaGetErrorString kernel_name name true).
Local Abbreviation tail_launch_on_device :=
  (tail_launch cudaGraphLaunch cudaGetErrorString kernel_name name true).
Local Abbreviation fire_and_forget_on_device :=
  (fire_and_forget cudaGraphLaunch cudaGetErrorString kernel_name name true).

Lemma legal_context_check stream :
  legal_context stream <->
  bool_decide (stream = cudaStreamGraphTailLaunch)
  || bool_decide (stream = cudaStreamGraphFireAndForget) = true.
Proof.
  unfold legal_context. rewrite orb_true_iff, !bool_decide_eq_true. tauto.
Qed.

Lemma launch_legal this stream ls :
  legal_context stream ->
  launch_on_device this stream ls =
    let code := cudaGraphLaunch (m_graph this) stream in
    (if code =? cudaSuccess then Ret tt
     else Throw (KernelError kernel_name name (cudaGetErrorString code) code
                             (m_graph this)),
     ls ++ [(m_graph this, stream)]).
Proof.
  intros Hl. apply legal_context_check in Hl.
  unfold launch, bind at 1. rewrite Hl.
  unfold MUDA_KERNEL_ASSERT, ret, bind, call_cudaGraphLaunch.
  by destruct (cudaGraphLaunch (m_graph this) stream =? cudaSuccess).
Qed.

(** ** C9 *)


End ViewerFacts.

Section ViewerExamples.



End ViewerExamples.

(** ** More on the graph viewer *)
Section MoreViewer.
Variable cudaGraphLaunch : Z -> cudaStream_t -> Z.
Variable cudaGetErrorString : Z -> string.
Variables kernel_name name : string.

Local Abbreviation launch_in device :=
  (launch cudaGraphLaunch cudaGetErrorString kernel_name name device).

(** X17. What [launch] does, in host and in device code.  The context
    check is made in device code only; when it is passed, or not made, the
    graph is handed to the runtime exactly once on the stream given, and
    [launch] returns normally exactly when the runtime answers
    [cudaSuccess]; otherwise it reports the runtime's own code, its error
    string, the viewer's names and this graph.  When the check fails
    nothing is handed to the runtime.  In host code [tail_launch] and
    [fire_and_forget] do nothing at all. *)
Theorem launch_outcome (device : bool) this stream ls :
  let r := launch_in device this stream ls in
  let passes := device = false \/ legal_context stream in
  let code := cudaGraphLaunch (m_graph this) stream in
  (r.1 = Ret tt <-> passes /\ code = cudaSuccess)
  /\ (passes -> r.2 = ls ++ [(m_graph this, stream)])
  /\ (passes -> code <> cudaSuccess ->
      r.1 = Throw (KernelError kernel_name name (cudaGetErrorString code) code
                               (m_graph this)))
  /\ (~ passes -> r = (Throw (KernelAssert invalid_stream_msg), ls))
  /\ tail_launch cudaGraphLaunch cudaGetErrorString kernel_name name false this ls
     = (Ret tt, ls)
  /\ fire_and_forget cudaGraphLaunch cudaGetErrorString kernel_name name false this ls
     = (Ret tt, ls).
Proof.
  intros r passes code.
  assert (Hpass : passes ->
            r = (if code =? cudaSuccess then Ret tt
                 else Throw (KernelError kernel_name name (cudaGetErrorString code)
                                         code (m_graph this)),
                 ls ++ [(m_graph this, stream)])).
  { intros [-> | Hl].
    - unfold r, launch, bind, call_cudaGraphLaunch, ret. fold code.
      by destruct (code =? cudaSuccess).
    - destruct device.
      + by apply launch_legal.
      + unfold r, launch, bind, call_cudaGraphLaunch, ret. fold code.
        by destruct (code =? cudaSuccess). }
  assert (Hfail : ~ passes -> r = (Throw (KernelAssert invalid_stream_msg), ls)).
  { intros Hn. destruct device; [| exfalso; apply Hn; by left].
    assert (Hl : ~ legal_context stream) by (intros ?; apply Hn; by right).
    rewrite legal_context_check in Hl. apply not_true_is_false in Hl.
    unfold r, launch, bind. by rewrite Hl. }
  assert (Hdec : passes \/ ~ passes).
  { unfold passes, legal_context. destruct device; [| by left; left].
    destruct (decide (stream = cudaStreamGraphTailLaunch)); [by left; right; left |].
    destruct (decide (stream = cudaStreamGraphFireAndForget));
      [by left; right; right |].
    right. intros [? | [? | ?]]; done. }
  split_and!.
  - split.
    + intros Hr. destruct Hdec as [Hp | Hn].
      * split; [done |]. rewrite (Hpass Hp) in Hr. cbn [fst] in Hr.
        by destruct (Z.eqb_spec code cudaSuccess).
      * rewrite (Hfail Hn) in Hr. discriminate.
    + intros [Hp Hc]. rewrite (Hpass Hp). cbn [fst].
      by destruct (Z.eqb_spec code cudaSuccess).
  - intros Hp. by rewrite (Hpass Hp).
  - intros Hp Hc. rewrite (Hpass Hp). cbn [fst].
    by destruct (Z.eqb_spec code cudaSuccess).
  - done.
  - reflexivity.
  - reflexivity.
Qed.

End MoreViewer.

Section MoreViewerExamples.

Lemma launch_outcome_witness :
  let rt := fun (_ : Z) (s : cudaStream_t) =>
              if bool_decide (s = stream_handle 7) then 0 else 1 in
  let str := fun (_ : Z) => "invalid argument" : string in
  (launch rt str "kernel" "graph" false (MkGraphViewer 42) (stream_handle 7) []).2
    = [(42, stream_handle 7)]
  /\ (launch rt str "kernel" "graph" false (MkGraphViewer 42) (stream_handle 8) []).1
     = Throw (KernelError "kernel" "graph" "invalid argument" 1 42)
  /\ launch rt str "kernel" "graph" true (MkGraphViewer 42) (stream_handle 7) []
     = (Throw (KernelAssert invalid_stream_msg), []).
Proof.
  intros rt str. split_and!.
  - destruct (launch_outcome rt str "kernel" "graph" false (MkGraphViewer 42)
                (stream_handle 7) []) as (_ & H & _).
    apply H. left. reflexivity.
  - destruct (launch_outcome rt str "kernel" "graph" false (MkGraphViewer 42)
                (stream_handle 8) []) as (_ & _ & H & _).
    apply H; [left; reflexivity | vm_compute; discriminate].
  - destruct (launch_outcome rt str "kernel" "graph" true (MkGraphViewer 42)
                (stream_handle 7) []) as (_ & _ & _ & H & _).
    apply H. intros [E | [E | E]]; discriminate.
Defined.

End MoreViewerExamples.
